(** * The thread-safe LRU cache of make_tests_great/README.md

    A shallow embedding of the two methods shown in the notes,
    [Set] and [Get] of the type [lruCache], over a model of the
    doubly-linked recency queue and of the key index, followed by the
    properties the specification states about them. *)

From Stdlib Require Import ZArith Lia.
From stdpp Require Import gmap list strings sorting.

Open Scope Z_scope.

(** ** Data model *)

Section LRU.

Context {Key : Type} `{Countable Key}.

(** [V] stands for the dynamic values a Go [interface{}] can carry; the
    interface value itself is an [option V], [None] being the nil
    interface (the zero value [Get] returns on a miss). *)
Context {V : Type}.

(** [type cacheItem struct { key Key; value interface{} }] *)
Record cacheItem := mkItem { key : Key; value : option V }.

(** The field [Value] of a queue element has the static type
    [interface{}]: it may hold a [cacheItem] or anything else. *)
Inductive any :=
  | AnyItem (ci : cacheItem)
  | AnyOther (v : option V).

(** Modelled from the spec: the type of [cache.queue] is not declared in
    the notes.  It is the "recency ordering", a sequence of entries from
    most recently used (front) to least recently used (back), reached
    from the index through handles; the methods the source calls on it
    ([PushFront], [Front], [MoveToFront]) and the element field [Value]
    are those of Go's doubly-linked [container/list].
    Elements are named by their address; [elems] is the store of their
    [Value] fields, [order] the addresses that are linked into the list,
    front first, and [next] the next address the allocator hands out.
    An element pointer is an [option nat], [None] for nil. *)
Record List := mkList {
  elems : gmap nat any;
  order : list nat;
  next : nat
}.

(** Modelled from the spec: the declaration of [lruCache] is not part of
    the notes.  The fields [queue], [items] and [mutex] are the ones
    [Set] and [Get] use; [capacity] is the "configured capacity C" the
    cache is created with. *)
Record lruCache := mkCache {
  capacity : Z;
  queue : List;
  items : gmap Key (option nat);
  mutex : bool
}.

(** ** Effects: state, panics and a blocking lock *)

Inductive outcome (A : Type) :=
  | Returned (a : A) (c : lruCache)
  | Panicked (c : lruCache)
  | Blocked.
Arguments Returned {A} a c.
Arguments Panicked {A} c.
Arguments Blocked {A}.

Definition M (A : Type) := lruCache → outcome A.

Definition ret {A} (a : A) : M A := λ c, Returned a c.

Definition bind {A B} (m : M A) (k : A → M B) : M B :=
  λ c, match m c with
       | Returned a c' => k a c'
       | Panicked c' => Panicked c'
       | Blocked => Blocked
       end.

Definition panic {A} : M A := λ c, Panicked c.

(** [defer f] followed by the rest of the function body [m]: [f] runs
    when the body returns and also when it panics. *)
Definition defer {A} (f : M unit) (m : M A) : M A :=
  λ c, match m c with
       | Returned a c' =>
           match f c' with
           | Returned _ c'' => Returned a c''
           | Panicked c'' => Panicked c''
           | Blocked => Blocked
           end
       | Panicked c' =>
           match f c' with
           | Returned _ c'' => Panicked c''
           | Panicked c'' => Panicked c''
           | Blocked => Blocked
           end
       | Blocked => Blocked
       end.

Notation "'let*' x ':=' m 'in' k" := (bind m (λ x, k))
  (at level 10, x pattern, m at level 100, k at level 200).
Notation "m '>>' k" := (bind m (λ _, k))
  (at level 100, k at level 200, right associativity).

(** *** sync.Mutex *)

Definition mutex_Lock : M unit :=
  λ c, if mutex c then Blocked
       else Returned () (mkCache (capacity c) (queue c) (items c) true).

Definition mutex_Unlock : M unit :=
  λ c, if mutex c
       then Returned () (mkCache (capacity c) (queue c) (items c) false)
       else Panicked c.

(** *** The recency queue *)

Definition with_queue (c : lruCache) (l : List) : lruCache :=
  mkCache (capacity c) l (items c) (mutex c).

Definition List_PushFront (v : any) (l : List) : List * option nat :=
  (mkList (<[next l := v]> (elems l)) (next l :: order l) (S (next l)),
   Some (next l)).

Definition List_Front (l : List) : option nat := head (order l).

Definition List_Back (l : List) : option nat := last (order l).

Definition List_Len (l : List) : Z := Z.of_nat (length (order l)).

(** [if e.list != l || l.root.next == e { return }; l.move(e, &l.root)] *)
Definition List_MoveToFront (p : nat) (l : List) : List :=
  if bool_decide (p ∉ order l) || bool_decide (head (order l) = Some p)
  then l
  else mkList (elems l) (p :: filter (λ x, x ≠ p) (order l)) (next l).

(** [if e.list == l { l.remove(e) }] *)
Definition List_Remove (p : nat) (l : List) : List :=
  if bool_decide (p ∈ order l)
  then mkList (elems l) (filter (λ x, x ≠ p) (order l)) (next l)
  else l.

Definition queue_PushFront (v : any) : M (option nat) :=
  λ c, let '(l, e) := List_PushFront v (queue c) in Returned e (with_queue c l).

Definition queue_Front : M (option nat) := λ c, Returned (List_Front (queue c)) c.

Definition queue_Back : M (option nat) := λ c, Returned (List_Back (queue c)) c.

Definition queue_Len : M Z := λ c, Returned (List_Len (queue c)) c.

(** Reading [e.Value]: a nil [e] is a nil-pointer dereference. *)
Definition elem_Value (e : option nat) : M any :=
  λ c, match e with
       | None => Panicked c
       | Some p =>
           match elems (queue c) !! p with
           | Some a => Returned a c
           | None => Panicked c
           end
       end.

(** Writing [e.Value = a]. *)
Definition elem_set_Value (e : option nat) (a : any) : M unit :=
  λ c, match e with
       | None => Panicked c
       | Some p =>
           let l := queue c in
           Returned () (with_queue c (mkList (<[p := a]> (elems l)) (order l) (next l)))
       end.

Definition queue_MoveToFront (e : option nat) : M unit :=
  λ c, match e with
       | None => Panicked c
       | Some p => Returned () (with_queue c (List_MoveToFront p (queue c)))
       end.

Definition queue_Remove (e : option nat) : M unit :=
  λ c, match e with
       | None => Panicked c
       | Some p => Returned () (with_queue c (List_Remove p (queue c)))
       end.

(** The type assertion [a.(cacheItem)] panics on any other dynamic type. *)
Definition assert_cacheItem (a : any) : M cacheItem :=
  match a with
  | AnyItem ci => ret ci
  | AnyOther _ => panic
  end.

(** *** The index *)

(** [item, exists := cache.items[key]] *)
Definition items_lookup (k : Key) : M (option nat * bool) :=
  λ c, match items c !! k with
       | Some e => Returned (e, true) c
       | None => Returned (None, false) c
       end.

(** [cache.items[key] = e] *)
Definition items_store (k : Key) (e : option nat) : M unit :=
  λ c, Returned () (mkCache (capacity c) (queue c) (<[k := e]> (items c)) (mutex c)).

(** [delete(cache.items, key)] *)
Definition items_delete (k : Key) : M unit :=
  λ c, Returned () (mkCache (capacity c) (queue c) (delete k (items c)) (mutex c)).

(** ** Construction and eviction *)

Inductive error := InvalidCapacity.

(** Modelled from the spec: the constructor is not part of the notes
    (only the calls [NewCache(10)] of the tests are).  "[New(capacity C)]:
    fails with [InvalidCapacity] if [C < 1].  Returns an empty cache." *)
Definition New (C : Z) : error + lruCache :=
  if C <? 1 then inl InvalidCapacity
  else inr (mkCache C (mkList ∅ [] 0%nat) ∅ false).

(** Modelled from the spec: the helper [deleteUnusedIfOverflow] that [Set]
    calls is not part of the notes.  "If this insertion causes the live
    count to exceed [C], evict the entry currently at the back of the
    ordering (removing it from both the index and the ordering)". *)
Definition deleteUnusedIfOverflow : M unit :=
  λ c, (let* n := queue_Len in
        if capacity c <? n then
          let* back := queue_Back in
          let* a := elem_Value back in
          let* ci := assert_cacheItem a in
          queue_Remove back >>
          items_delete (key ci)
        else ret ()) c.

(** ** The two methods *)

(** [func (cache *lruCache) Set(key Key, value interface{}) bool] *)
Definition lruCache_Set (k : Key) (v : option V) : M bool :=
  mutex_Lock >>
  let* (item, exists_) := items_lookup k in
  (if negb exists_ then
     queue_PushFront (AnyItem (mkItem k v)) >>
     let* front := queue_Front in
     items_store k front >>
     deleteUnusedIfOverflow
   else
     let* a := elem_Value item in
     let* updatingCacheItem := assert_cacheItem a in
     elem_set_Value item (AnyItem (mkItem (key updatingCacheItem) v)) >>
     queue_MoveToFront item) >>
  mutex_Unlock >>
  ret exists_.

(** [func (cache *lruCache) Get(key Key) (interface{}, bool)] *)
Definition lruCache_Get (k : Key) : M (option V * bool) :=
  mutex_Lock >>
  defer mutex_Unlock
    (let* (item, exists_) := items_lookup k in
     if exists_ then
       queue_MoveToFront item >>
       let* a := elem_Value item in
       let* ci := assert_cacheItem a in
       ret (value ci, true)
     else ret (None, false)).

End LRU.

Arguments cacheItem Key V : clear implicits.
Arguments any Key V : clear implicits.
Arguments List Key V : clear implicits.
Arguments lruCache Key {_ _} V.
Arguments outcome Key {_ _} V A.
Arguments M Key {_ _} V A.
Arguments Returned {Key _ _ V A} a c.
Arguments Panicked {Key _ _ V A} c.
Arguments Blocked {Key _ _ V A}.
Arguments List_MoveToFront : simpl never.
Arguments List_Remove : simpl never.

(** ** Observations and the representation invariant *)

Section Observations.

Context {Key : Type} `{Countable Key} {V : Type}.

(** The [cacheItem] an element holds, when it holds one. *)
Definition item_at (l : List Key V) (p : nat) : option (cacheItem Key V) :=
  match elems l !! p with
  | Some (AnyItem ci) => Some ci
  | _ => None
  end.

(** The recency ordering: the items of the queue, front (most recently
    used) first. *)
Definition entries (c : lruCache Key V) : list (cacheItem Key V) :=
  omap (item_at (queue c)) (order (queue c)).

Definition keys (c : lruCache Key V) : list Key := key <$> entries c.

(** The number of keys present in the index. *)
Definition live (c : lruCache Key V) : nat := size (items c).

(** The correspondence between index and queue: every linked element
    stores a [cacheItem] whose key is indexed to that very element, and
    every index entry points to a linked element storing its key. *)
Definition index_queue_corr (c : lruCache Key V) : Prop :=
  (∀ p, p ∈ order (queue c) →
        ∃ ci, elems (queue c) !! p = Some (AnyItem ci) ∧
              items c !! key ci = Some (Some p)) ∧
  (∀ k e, items c !! k = Some e →
        ∃ p ci, e = Some p ∧ p ∈ order (queue c) ∧
                elems (queue c) !! p = Some (AnyItem ci) ∧ key ci = k).

Record wf (c : lruCache Key V) : Prop := mkWf {
  wf_unlocked : mutex c = false;
  wf_capacity : 1 ≤ capacity c;
  wf_length : Z.of_nat (length (order (queue c))) ≤ capacity c;
  wf_nodup : NoDup (order (queue c));
  wf_fresh : ∀ p, p ∈ order (queue c) → (p < next (queue c))%nat;
  wf_corr : index_queue_corr c
}.

(** Caches obtained from the constructor by calls that returned. *)
Inductive created (C : Z) : lruCache Key V → Prop :=
  | created_New c :
      New C = inr c → created C c
  | created_Set c k v b c' :
      created C c → lruCache_Set k v c = Returned b c' → created C c'
  | created_Get c k r c' :
      created C c → lruCache_Get k c = Returned r c' → created C c'.

Inductive op :=
  | OpSet (k : Key) (v : option V)
  | OpGet (k : Key).

Definition call (o : op) : M Key V unit :=
  match o with
  | OpSet k v => bind (lruCache_Set k v) (λ _, ret ())
  | OpGet k => bind (lruCache_Get k) (λ _, ret ())
  end.

Fixpoint run (ops : list op) : M Key V unit :=
  match ops with
  | [] => ret ()
  | o :: ops' => bind (call o) (λ _, run ops')
  end.

(** A call touches the key it is made on, be it a [Set] or a [Get]. *)
Definition touches (o : op) (k : Key) : bool :=
  match o with
  | OpSet k' _ => bool_decide (k' = k)
  | OpGet k' => bool_decide (k' = k)
  end.

(** The time of the last touch of [k] in a history of calls: the
    position, counted from 1, of the last call on [k]; 0 when [k] was
    never touched. *)
Fixpoint last_touch (ops : list op) (k : Key) : nat :=
  match ops with
  | [] => 0
  | o :: ops' =>
      match last_touch ops' k with
      | O => if touches o k then 1 else 0
      | S n => S (S n)
      end
  end.

(** The recency ordering as the specification describes it, a reference
    to compare [keys] with: every [Set] and every [Get] that finds its
    key moves the key to the front, and an insert beyond the capacity
    drops the back. *)
Definition recency_touch (C : nat) (ks : list Key) (o : op) : list Key :=
  match o with
  | OpSet k _ => take C (k :: filter (λ x, x ≠ k) ks)
  | OpGet k => if decide (k ∈ ks) then k :: filter (λ x, x ≠ k) ks else ks
  end.

Definition recency_spec (C : nat) (ops : list op) : list Key :=
  foldl (recency_touch C) [] ops.

(** P4 as the specification words it: on a full cache whose least
    recently used key is [k1], a [Get k1] followed by the [Set] of a new
    key leaves [k1] present. *)
Definition Get_protects_LRU (C : Z) (c : lruCache Key V)
    (k1 k : Key) (v : option V) : Prop :=
  created C c → last (keys c) = Some k1 →
  Z.of_nat (length (keys c)) = C → k ∉ keys c →
  ∃ v1 c1 b c2,
    lruCache_Get k1 c = Returned (v1, true) c1 ∧
    lruCache_Set k v c1 = Returned b c2 ∧
    ∃ v1' c3, lruCache_Get k1 c2 = Returned (v1', true) c3.

End Observations.

Arguments op Key V : clear implicits.

(** ** Concrete caches, with string keys and integer values *)

Definition empty1 : lruCache string Z := mkCache 1 (mkList ∅ [] 0%nat) ∅ false.

Definition empty2 : lruCache string Z := mkCache 2 (mkList ∅ [] 0%nat) ∅ false.

(** [New(1)] after [Set("a", 1)]. *)
Definition cache_a : lruCache string Z :=
  mkCache 1
    (mkList {[ 0%nat := AnyItem (mkItem "a"%string (Some 1)) ]} [0%nat] 1%nat)
    {[ "a"%string := Some 0%nat ]} false.

(** [New(2)] after [Set("a", 1)] and [Set("b", 2)]. *)
Definition cache_ab : lruCache string Z :=
  mkCache 2
    (mkList {[ 0%nat := AnyItem (mkItem "a"%string (Some 1));
               1%nat := AnyItem (mkItem "b"%string (Some 2)) ]}
            [1%nat; 0%nat] 2%nat)
    {[ "a"%string := Some 0%nat; "b"%string := Some 1%nat ]} false.

(** [New(2)] after [Set("a", 1)], [Set("b", 2)] and [Get("a")]: the
    read has moved "a" in front of "b". *)
Definition cache_ab_read : lruCache string Z :=
  mkCache 2
    (mkList {[ 0%nat := AnyItem (mkItem "a"%string (Some 1));
               1%nat := AnyItem (mkItem "b"%string (Some 2)) ]}
            [0%nat; 1%nat] 2%nat)
    {[ "a"%string := Some 0%nat; "b"%string := Some 1%nat ]} false.

(** [New(2)] after [Set("a", 1)]: one entry and one free slot. *)
Definition cache_a_room : lruCache string Z :=
  mkCache 2
    (mkList {[ 0%nat := AnyItem (mkItem "a"%string (Some 1)) ]} [0%nat] 1%nat)
    {[ "a"%string := Some 0%nat ]} false.

(** A cache whose index points at a queue element that does not hold a
    [cacheItem]: well-typed, as [Value] is an [interface{}], but not
    something [Set] and [Get] ever build. *)
Definition cache_foreign : lruCache string Z :=
  mkCache 2
    (mkList {[ 0%nat := AnyOther (Some 7) ]} [0%nat] 1%nat)
    {[ "a"%string := Some 0%nat ]} false.

(** ** The other containers of the same notes

    The notes that precede the LRU cache in the file rewrite three small
    containers with generics: a notifier, a map-backed cache and a
    storage behind an interface. *)

(** The zero value [var zero T] of a Go type. *)
Class GoZero (T : Type) := go_zero : T.

#[export] Instance string_GoZero : GoZero string := ""%string.
#[export] Instance Z_GoZero : GoZero Z := 0.

(** A call that returns, or panics. *)
Inductive go_result (A : Type) :=
  | Ok (a : A)
  | Panics.
Arguments Ok {A} a.
Arguments Panics {A}.

(** A value of type [map[string]T]: [None] is the nil map of a struct
    whose map was never made. *)
Section GoMap.

Context {T : Type} `{GoZero T}.

(** [value, exists := m[key]]: reading a nil map finds nothing. *)
Definition map_index (m : option (gmap string T)) (k : string) : T * bool :=
  match m with
  | Some g =>
      match g !! k with
      | Some v => (v, true)
      | None => (go_zero, false)
      end
  | None => (go_zero, false)
  end.

(** [m[key] = value]: assignment to an entry of a nil map panics. *)
Definition map_assign (m : option (gmap string T)) (k : string) (v : T)
  : go_result (option (gmap string T)) :=
  match m with
  | Some g => Ok (Some (<[k := v]> g))
  | None => Panics
  end.

(** [delete(m, key)]: a no-op on a nil map and on a missing key. *)
Definition map_delete (m : option (gmap string T)) (k : string)
  : option (gmap string T) :=
  match m with
  | Some g => Some (delete k g)
  | None => None
  end.

End GoMap.

(** [type Cache[T any] struct { data map[string]T }]; [IntCache] of the
    "before" version is the same code at [T = int]. *)
Module PolyCache.
Section PolyCache.

Context {T : Type} `{GoZero T}.

Record Cache := mkCache { data : option (gmap string T) }.

(** [return &Cache[T]{data: make(map[string]T)}] *)
Definition NewCache : Cache := mkCache (Some ∅).

(** [func (c *Cache[T]) Set(key string, value T)] *)
Definition Cache_Set (key : string) (value : T) (c : Cache) : go_result Cache :=
  match map_assign (data c) key value with
  | Ok m => Ok (mkCache m)
  | Panics => Panics
  end.

(** [func (c *Cache[T]) Get(key string) (T, bool)] *)
Definition Cache_Get (key : string) (c : Cache) : T * bool :=
  map_index (data c) key.

(** A run of [Set] calls, stopping at the first panic. *)
Fixpoint Cache_Set_all (kvs : list (string * T)) (c : Cache) : go_result Cache :=
  match kvs with
  | [] => Ok c
  | (k, v) :: kvs' =>
      match Cache_Set k v c with
      | Ok c' => Cache_Set_all kvs' c'
      | Panics => Panics
      end
  end.

End PolyCache.
Arguments Cache T : clear implicits.
End PolyCache.

(** The storage of example 5 before the rewrite:
    [type InMemoryStorage struct { data map[string]string }]. *)
Module OldStore.

Record InMemoryStorage := mkStorage { data : option (gmap string string) }.

(** [return &InMemoryStorage{data: make(map[string]string)}] *)
Definition NewInMemoryStorage : InMemoryStorage := mkStorage (Some ∅).

(** [func (s *InMemoryStorage) Save(key, value string)] *)
Definition InMemoryStorage_Save (key value : string) (s : InMemoryStorage)
  : go_result InMemoryStorage :=
  match map_assign (data s) key value with
  | Ok m => Ok (mkStorage m)
  | Panics => Panics
  end.

(** [func (s *InMemoryStorage) Load(key string) (string, bool)] *)
Definition InMemoryStorage_Load (key : string) (s : InMemoryStorage)
  : string * bool :=
  map_index (data s) key.

(** [func (s *InMemoryStorage) Delete(key string)] *)
Definition InMemoryStorage_Delete (key : string) (s : InMemoryStorage)
  : InMemoryStorage :=
  mkStorage (map_delete (data s) key).

End OldStore.

(** The storage after the rewrite, behind an interface. *)
Module Store.

(** [type StorageBackend[T any] interface { Save; Load; Delete }]: the
    methods of an implementation with state [B].  Any of them may
    panic, and any of them may change the state. *)
Class StorageBackend (T B : Type) := {
  Save : string → T → B → go_result B;
  Load : string → B → go_result (T * bool * B);
  Delete : string → B → go_result B
}.

Section Backend.

Context {T : Type} `{GoZero T}.

(** [type InMemoryBackend[T any] struct { data map[string]T }] *)
Record InMemoryBackend := mkBackend { data : option (gmap string T) }.

Definition NewInMemoryBackend : InMemoryBackend := mkBackend (Some ∅).

Definition InMemoryBackend_Save (key : string) (value : T) (b : InMemoryBackend)
  : go_result InMemoryBackend :=
  match map_assign (data b) key value with
  | Ok m => Ok (mkBackend m)
  | Panics => Panics
  end.

Definition InMemoryBackend_Load (key : string) (b : InMemoryBackend)
  : go_result (T * bool * InMemoryBackend) :=
  Ok (map_index (data b) key, b).

Definition InMemoryBackend_Delete (key : string) (b : InMemoryBackend)
  : go_result InMemoryBackend :=
  Ok (mkBackend (map_delete (data b) key)).

#[export] Instance InMemoryBackend_StorageBackend : StorageBackend T InMemoryBackend := {
  Save := InMemoryBackend_Save;
  Load := InMemoryBackend_Load;
  Delete := InMemoryBackend_Delete
}.

(** [type Storage[T any] struct { backend StorageBackend[T] }]: the
    interface value is [None] when nil, and calling a method on it then
    panics. *)
Record Storage (B : Type) := mkStorage { backend : option B }.
Arguments mkStorage {B} backend.
Arguments backend {B} s.

Definition NewStorage {B : Type} (b : option B) : Storage B := mkStorage b.

(** [func (s *Storage[T]) Save(key string, value T) { s.backend.Save(key, value) }] *)
Definition Storage_Save {B} `{StorageBackend T B} (key : string) (value : T)
    (s : Storage B) : go_result (Storage B) :=
  match backend s with
  | Some b =>
      match Save key value b with
      | Ok b' => Ok (mkStorage (Some b'))
      | Panics => Panics
      end
  | None => Panics
  end.

(** [func (s *Storage[T]) Load(key string) (T, bool) { return s.backend.Load(key) }] *)
Definition Storage_Load {B} `{StorageBackend T B} (key : string)
    (s : Storage B) : go_result (T * bool * Storage B) :=
  match backend s with
  | Some b =>
      match Load key b with
      | Ok (r, b') => Ok (r, mkStorage (Some b'))
      | Panics => Panics
      end
  | None => Panics
  end.

(** [func (s *Storage[T]) Delete(key string) { s.backend.Delete(key) }] *)
Definition Storage_Delete {B} `{StorageBackend T B} (key : string)
    (s : Storage B) : go_result (Storage B) :=
  match backend s with
  | Some b =>
      match Delete key b with
      | Ok b' => Ok (mkStorage (Some b'))
      | Panics => Panics
      end
  | None => Panics
  end.

End Backend.
Arguments InMemoryBackend T : clear implicits.
Arguments mkStorage {B} backend.
Arguments backend {B} s.

(** The calls a client makes, and what it observes of a run: the result
    of every [Load], in order, or a panic. *)
Inductive storage_op :=
  | DoSave (key value : string)
  | DoLoad (key : string)
  | DoDelete (key : string).

Fixpoint run_before (ops : list storage_op) (s : OldStore.InMemoryStorage)
  : go_result (list (string * bool)) :=
  match ops with
  | [] => Ok []
  | DoSave k v :: ops' =>
      match OldStore.InMemoryStorage_Save k v s with
      | Ok s' => run_before ops' s'
      | Panics => Panics
      end
  | DoLoad k :: ops' =>
      match run_before ops' s with
      | Ok rs => Ok (OldStore.InMemoryStorage_Load k s :: rs)
      | Panics => Panics
      end
  | DoDelete k :: ops' => run_before ops' (OldStore.InMemoryStorage_Delete k s)
  end.

Fixpoint run_after {B} `{StorageBackend string B} (ops : list storage_op)
    (s : Storage B) : go_result (list (string * bool)) :=
  match ops with
  | [] => Ok []
  | DoSave k v :: ops' =>
      match Storage_Save k v s with
      | Ok s' => run_after ops' s'
      | Panics => Panics
      end
  | DoLoad k :: ops' =>
      match Storage_Load k s with
      | Ok (r, s') =>
          match run_after ops' s' with
          | Ok rs => Ok (r :: rs)
          | Panics => Panics
          end
      | Panics => Panics
      end
  | DoDelete k :: ops' =>
      match Storage_Delete k s with
      | Ok s' => run_after ops' s'
      | Panics => Panics
      end
  end.

End Store.

(** [type Observer[T any] func(T)] and [type Notifier[T any] struct
    { observers []Observer[T] }].  An observer acts on the world [W]
    outside the notifier and either returns or panics, leaving the
    world in the state it reached; a nil function value is [None], and
    calling it panics.  [StringNotifier] of the "before" version is the
    same code at [T = string]. *)
Module Notify.
Section Notify.

Context {T W : Type}.

Inductive notified :=
  | Notified (w : W)
  | NotifyPanicked (w : W).

Definition Observer := option (T → W → notified).

Record Notifier := mkNotifier { observers : list Observer }.

(** [n.observers = append(n.observers, observer)] *)
Definition Register (observer : Observer) (n : Notifier) : Notifier :=
  mkNotifier (observers n ++ [observer]).

(** [Register] called on each observer of a list, first to last. *)
Definition Register_all (os : list Observer) (n : Notifier) : Notifier :=
  foldl (λ n observer, Register observer n) n os.

(** [observer(data)] *)
Definition call_observer (observer : Observer) (data : T) (w : W) : notified :=
  match observer with
  | Some f => f data w
  | None => NotifyPanicked w
  end.

(** The loop body over the remaining observers: a panic leaves the
    loop, and the observers after it are not called. *)
Fixpoint range_observers (os : list Observer) (data : T) (w : W) : notified :=
  match os with
  | [] => Notified w
  | observer :: os' =>
      match call_observer observer data w with
      | Notified w' => range_observers os' data w'
      | NotifyPanicked w' => NotifyPanicked w'
      end
  end.

(** [for _, observer := range n.observers { observer(data) }] *)
Definition Notify (data : T) (n : Notifier) (w : W) : notified :=
  range_observers (observers n) data w.

End Notify.
Arguments notified W : clear implicits.
Arguments Observer T W : clear implicits.
Arguments Notifier T W : clear implicits.
End Notify.

(** ** List lemmas used for the queue *)

Section ListFacts.

Context {A B : Type} `{EqDecision A}.

Lemma filter_ne_notin (p : A) (l : list A) :
  p ∉ l → filter (λ x, x ≠ p) l = l.
Proof.
  induction l as [|x l IH]; intros Hp; [done|].
  apply not_elem_of_cons in Hp as [Hx Hl].
  rewrite filter_cons_True by congruence. by rewrite IH.
Qed.

Lemma filter_ne_head (p : A) (t : list A) :
  NoDup (p :: t) → filter (λ x, x ≠ p) (p :: t) = t.
Proof.
  intros [Hp _]%NoDup_cons.
  rewrite filter_cons_False by (intros Hne; by apply Hne).
  by apply filter_ne_notin.
Qed.

Lemma filter_ne_last (p : A) (l : list A) :
  NoDup (l ++ [p]) → filter (λ x, x ≠ p) (l ++ [p]) = l.
Proof.
  intros Hnd. apply NoDup_app in Hnd as (_ & Hdisj & _).
  rewrite filter_app, filter_cons_False by (intros Hne; by apply Hne).
  rewrite filter_nil, app_nil_r. apply filter_ne_notin.
  intros Hin. apply (Hdisj p Hin). by left.
Qed.

Lemma filter_ne_perm (p : A) (l : list A) :
  NoDup l → p ∈ l → p :: filter (λ x, x ≠ p) l ≡ₚ l.
Proof.
  intros Hnd Hin. apply list_elem_of_split in Hin as (l1 & l2 & ->).
  apply NoDup_app in Hnd as (_ & Hdisj & [Hp2 _]%NoDup_cons).
  rewrite filter_app, filter_cons_False by (intros Hne; by apply Hne).
  rewrite !filter_ne_notin; [by rewrite Permutation_middle| done |].
  intros Hin. apply (Hdisj p Hin). by left.
Qed.

Lemma length_filter_ne (p : A) (l : list A) :
  NoDup l → p ∈ l → S (length (filter (λ x, x ≠ p) l)) = length l.
Proof.
  intros Hnd Hin. by rewrite <- (Permutation_length (filter_ne_perm p l Hnd Hin)).
Qed.

(** Filtering addresses and filtering the items stored at them agree
    when the two predicates correspond on the list. *)
Lemma omap_filter_corr (f g : A → option B) (P : A → Prop) (Q : B → Prop)
    `{∀ x, Decision (P x)} `{∀ y, Decision (Q y)} (l : list A) :
  (∀ x, x ∈ l → ∃ y, f x = Some y ∧ (P x ↔ Q y) ∧ (P x → g x = Some y)) →
  omap g (filter P l) = filter Q (omap f l).
Proof.
  induction l as [|x l IH]; intros Hl; [done|].
  destruct (Hl x) as (y & Hf & HPQ & Hg); [by left|].
  assert (omap g (filter P l) = filter Q (omap f l)) as IH'.
  { apply IH. intros x' Hx'. apply Hl. by right. }
  change (omap f (x :: l)) with
    (match f x with Some y => y :: omap f l | None => omap f l end).
  rewrite Hf. destruct (decide (P x)) as [HP|HP].
  - rewrite filter_cons_True by done.
    change (omap g (x :: filter P l)) with
      (match g x with Some y => y :: omap g (filter P l) | None => omap g (filter P l) end).
    rewrite (Hg HP).
    rewrite filter_cons_True by (by apply HPQ). by rewrite IH'.
  - rewrite filter_cons_False by done.
    rewrite filter_cons_False by (by rewrite <- HPQ). done.
Qed.

Lemma omap_agree (f g : A → option B) (l : list A) :
  (∀ x, x ∈ l → g x = f x) → omap g l = omap f l.
Proof.
  induction l as [|x l IH]; intros Hl; [done|].
  change (omap g (x :: l)) with
    (match g x with Some y => y :: omap g l | None => omap g l end).
  change (omap f (x :: l)) with
    (match f x with Some y => y :: omap f l | None => omap f l end).
  rewrite (Hl x) by (by left). rewrite IH; [done|].
  intros x' Hx'. apply Hl. by right.
Qed.

Lemma omap_total_length (f : A → option B) (l : list A) :
  (∀ x, x ∈ l → is_Some (f x)) → length (omap f l) = length l.
Proof.
  induction l as [|x l IH]; intros Hl; [done|].
  change (omap f (x :: l)) with
    (match f x with Some y => y :: omap f l | None => omap f l end).
  destruct (Hl x) as [y ->]; [by left|]. simpl. rewrite IH; [done|].
  intros x' Hx'. apply Hl. by right.
Qed.

End ListFacts.

(** ** Properties *)

Section Properties.

Context {Key : Type} `{Countable Key} {V : Type}.
Implicit Types (c : lruCache Key V) (k : Key) (v : option V) (p : nat).

Local Ltac run_ops :=
  unfold lruCache_Set, lruCache_Get, deleteUnusedIfOverflow, defer, bind, ret,
    mutex_Lock, mutex_Unlock, items_lookup, items_store, items_delete,
    queue_PushFront, queue_Front, queue_Back, queue_Len, queue_MoveToFront,
    queue_Remove, elem_Value, elem_set_Value, assert_cacheItem, panic,
    with_queue; simpl.

(** *** The constructor *)

Lemma New_fails_iff (C : Z) :
  New (Key:=Key) (V:=V) C = inl InvalidCapacity ↔ C < 1.
Proof.
  unfold New. destruct (Z.ltb_spec C 1); split; intros; try done; lia.
Qed.

Lemma New_returns (C : Z) :
  1 ≤ C → New (Key:=Key) (V:=V) C = inr (mkCache C (mkList ∅ [] 0%nat) ∅ false).
Proof.
  intros HC. unfold New. destruct (Z.ltb_spec C 1); [lia|done].
Qed.

Lemma New_inr (C : Z) c :
  New C = inr c → 1 ≤ C ∧ c = mkCache C (mkList ∅ [] 0%nat) ∅ false.
Proof.
  unfold New. destruct (Z.ltb_spec C 1); intros Heq; [done|].
  split; [lia|congruence].
Qed.

Lemma wf_New (C : Z) c : New C = inr c → wf c ∧ capacity c = C.
Proof.
  intros [HC ->]%New_inr. split; [|done].
  split; cbn [mutex capacity queue items order elems next length];
    try done; try lia.
  - apply NoDup_nil_2.
  - intros p Hp. by apply elem_of_nil in Hp.
  - split; [intros p Hp; by apply elem_of_nil in Hp|].
    intros k e Hk. cbn [items] in Hk. by apply lookup_empty_Some in Hk.
Qed.

(** *** Consequences of the invariant *)

Lemma wf_item_at c p :
  wf c → p ∈ order (queue c) →
  ∃ ci, item_at (queue c) p = Some ci ∧
        elems (queue c) !! p = Some (AnyItem ci) ∧
        items c !! key ci = Some (Some p).
Proof.
  intros Hwf Hp. destruct (wf_corr c Hwf) as [Hq _].
  destruct (Hq p Hp) as (ci & He & Hi). exists ci.
  unfold item_at. by rewrite He.
Qed.

Lemma wf_entries_length c :
  wf c → length (entries c) = length (order (queue c)).
Proof.
  intros Hwf. apply omap_total_length. intros p Hp.
  destruct (wf_item_at c p Hwf Hp) as (ci & -> & _). by eexists.
Qed.

Lemma elem_of_entries c ci :
  ci ∈ entries c ↔ ∃ p, p ∈ order (queue c) ∧ item_at (queue c) p = Some ci.
Proof. unfold entries. rewrite list_elem_of_omap. naive_solver. Qed.

Lemma wf_keys_index c k :
  wf c → k ∈ keys c ↔ is_Some (items c !! k).
Proof.
  intros Hwf. unfold keys. rewrite list_elem_of_fmap. split.
  - intros (ci & -> & (p & Hp & Hat)%elem_of_entries).
    destruct (wf_item_at c p Hwf Hp) as (ci' & Hat' & _ & Hi).
    rewrite Hat in Hat'. injection Hat' as <-. by eexists.
  - intros [e He]. destruct (wf_corr c Hwf) as [_ Hi].
    destruct (Hi k e He) as (p & ci & -> & Hp & Hel & Hk).
    exists ci. split; [done|]. apply elem_of_entries. exists p.
    split; [done|]. unfold item_at. by rewrite Hel.
Qed.

Lemma wf_nodup_keys c : wf c → NoDup (keys c).
Proof.
  intros Hwf. unfold keys, entries.
  pose proof (wf_nodup c Hwf) as Hnd.
  assert (∀ p, p ∈ order (queue c) →
          ∃ ci, item_at (queue c) p = Some ci ∧ items c !! key ci = Some (Some p)) as Hq.
  { intros p Hp. destruct (wf_item_at c p Hwf Hp) as (ci & ? & _ & ?). eauto. }
  clear Hwf. induction Hnd as [|p l Hp Hnd IH]; [apply NoDup_nil_2|].
  destruct (Hq p) as (ci & Hat & Hi); [by left|].
  change (omap (item_at (queue c)) (p :: l)) with
    (match item_at (queue c) p with
     | Some y => y :: omap (item_at (queue c)) l
     | None => omap (item_at (queue c)) l
     end).
  rewrite Hat, fmap_cons. apply NoDup_cons. split.
  - intros (ci' & Hk & (p' & Hp' & Hat')%list_elem_of_omap)%list_elem_of_fmap.
    destruct (Hq p') as (ci'' & Hat'' & Hi'); [by right|].
    rewrite Hat' in Hat''. injection Hat'' as <-.
    rewrite <- Hk, Hi in Hi'. injection Hi' as ->. done.
  - apply IH. intros p' Hp'. apply Hq. by right.
Qed.

Lemma wf_live c : wf c → live c = length (order (queue c)).
Proof.
  intros Hwf. unfold live.
  rewrite <- (wf_entries_length c Hwf), <- (length_fmap key (entries c)).
  fold (keys c). rewrite <- size_dom.
  assert (dom (items c) = list_to_set (keys c)) as ->.
  { apply set_eq. intros k. rewrite elem_of_dom, elem_of_list_to_set.
    by rewrite wf_keys_index. }
  apply size_list_to_set, wf_nodup_keys, Hwf.
Qed.

(** *** What the two methods compute *)

Lemma elems_MoveToFront p (l : List Key V) :
  elems (List_MoveToFront p l) = elems l.
Proof. unfold List_MoveToFront. by destruct (_ || _). Qed.

Lemma next_MoveToFront p (l : List Key V) :
  next (List_MoveToFront p l) = next l.
Proof. unfold List_MoveToFront. by destruct (_ || _). Qed.

Lemma order_MoveToFront p (l : List Key V) :
  NoDup (order l) → p ∈ order l →
  order (List_MoveToFront p l) = p :: filter (λ x, x ≠ p) (order l).
Proof.
  intros Hnd Hp. unfold List_MoveToFront.
  rewrite bool_decide_eq_false_2 by (intros Hn; by apply Hn).
  destruct (bool_decide_reflect (head (order l) = Some p)) as [Hh|Hh]; [|done].
  simpl. destruct (order l) as [|x t]; [done|]. injection Hh as ->.
  by rewrite filter_ne_head.
Qed.

Lemma Get_miss c k :
  mutex c = false → items c !! k = None →
  lruCache_Get k c = Returned (None, false) c.
Proof.
  destruct c as [cap q it mu]. simpl. intros -> Hk.
  run_ops. by rewrite Hk.
Qed.

Lemma Get_hit c k p ci :
  mutex c = false → items c !! k = Some (Some p) →
  elems (queue c) !! p = Some (AnyItem ci) →
  lruCache_Get k c =
  Returned (value ci, true) (with_queue c (List_MoveToFront p (queue c))).
Proof.
  destruct c as [cap q it mu]. simpl. intros -> Hk He.
  run_ops. rewrite Hk. simpl. rewrite elems_MoveToFront, He. done.
Qed.

Lemma Set_hit c k v p ci :
  mutex c = false → items c !! k = Some (Some p) →
  elems (queue c) !! p = Some (AnyItem ci) →
  lruCache_Set k v c =
  Returned true
    (with_queue c
       (List_MoveToFront p
          (mkList (<[p := AnyItem (mkItem (key ci) v)]> (elems (queue c)))
                  (order (queue c)) (next (queue c))))).
Proof.
  destruct c as [cap q it mu]. simpl. intros -> Hk He.
  run_ops. rewrite Hk. simpl. rewrite He. done.
Qed.

Lemma Set_miss_fits c k v :
  mutex c = false → items c !! k = None →
  Z.of_nat (S (length (order (queue c)))) ≤ capacity c →
  lruCache_Set k v c =
  Returned false
    (mkCache (capacity c)
       (mkList (<[next (queue c) := AnyItem (mkItem k v)]> (elems (queue c)))
               (next (queue c) :: order (queue c)) (S (next (queue c))))
       (<[k := Some (next (queue c))]> (items c)) false).
Proof.
  destruct c as [cap q it mu]. simpl. intros -> Hk Hlen.
  run_ops. rewrite Hk. simpl. unfold List_Len. simpl.
  destruct (Z.ltb_spec cap (Z.of_nat (S (length (order q))))); [lia|done].
Qed.

Lemma Set_miss_overflow c k v pb cib :
  mutex c = false → items c !! k = None →
  capacity c < Z.of_nat (S (length (order (queue c)))) →
  last (order (queue c)) = Some pb → pb ≠ next (queue c) →
  elems (queue c) !! pb = Some (AnyItem cib) →
  lruCache_Set k v c =
  Returned false
    (mkCache (capacity c)
       (mkList (<[next (queue c) := AnyItem (mkItem k v)]> (elems (queue c)))
               (filter (λ x, x ≠ pb) (next (queue c) :: order (queue c)))
               (S (next (queue c))))
       (delete (key cib) (<[k := Some (next (queue c))]> (items c))) false).
Proof.
  destruct c as [cap q it mu]. simpl. intros -> Hk Hlen Hlast Hne He.
  run_ops. rewrite Hk. simpl. unfold List_Len, List_Back, List_Front. simpl.
  destruct (Z.ltb_spec cap (Z.of_nat (S (length (order q))))); [|lia].
  simpl.
  assert (last (next q :: order q) = Some pb) as ->.
  { destruct (order q); [done|]. by rewrite last_cons_cons. }
  rewrite lookup_insert_ne by done. rewrite He. simpl.
  unfold List_Remove. simpl.
  rewrite bool_decide_eq_true_2; [done|].
  right. by apply last_Some_elem_of.
Qed.

(** *** The invariant is preserved *)

Lemma wf_reorder c (ord' : list nat) :
  wf c → ord' ≡ₚ order (queue c) →
  wf (with_queue c (mkList (elems (queue c)) ord' (next (queue c)))).
Proof.
  intros [Hmu Hcap Hlen Hnd Hfr [Hq Hi]] Hperm.
  split; cbn [with_queue mutex capacity queue items order elems next]; try done.
  - by rewrite Hperm.
  - by rewrite Hperm.
  - intros p Hp. apply Hfr. by rewrite <- Hperm.
  - split; cbn [with_queue mutex capacity queue items order elems next].
    + intros p Hp. apply Hq. by rewrite <- Hperm.
    + intros k e Hk. destruct (Hi k e Hk) as (p & ci & -> & Hp & He & Hkey).
      exists p, ci. by rewrite Hperm.
Qed.

Lemma wf_update c p ci v :
  wf c → p ∈ order (queue c) →
  elems (queue c) !! p = Some (AnyItem ci) →
  wf (with_queue c
        (mkList (<[p := AnyItem (mkItem (key ci) v)]> (elems (queue c)))
                (order (queue c)) (next (queue c)))).
Proof.
  intros [Hmu Hcap Hlen Hnd Hfr [Hq Hi]] Hp He.
  split; cbn [with_queue mutex capacity queue items order elems next]; try done.
  split; cbn [with_queue mutex capacity queue items order elems next].
  - intros p' Hp'. destruct (decide (p' = p)) as [->|Hne].
    + exists (mkItem (key ci) v). rewrite lookup_insert_eq. split; [done|].
      destruct (Hq p Hp) as (ci' & He' & Hi'). simpl. congruence.
    + rewrite lookup_insert_ne by done. by apply Hq.
  - intros k e Hk. destruct (Hi k e Hk) as (p' & ci' & -> & Hp' & He' & Hkey).
    destruct (decide (p' = p)) as [->|Hne].
    + exists p, (mkItem (key ci) v). rewrite lookup_insert_eq.
      repeat split; try done. simpl. congruence.
    + exists p', ci'. by rewrite lookup_insert_ne.
Qed.

Lemma wf_MoveToFront c p :
  wf c → p ∈ order (queue c) →
  wf (with_queue c (List_MoveToFront p (queue c))).
Proof.
  intros Hwf Hp.
  assert (List_MoveToFront p (queue c) =
          mkList (elems (queue c)) (p :: filter (λ x, x ≠ p) (order (queue c)))
                 (next (queue c))) as ->.
  { pose proof (order_MoveToFront p (queue c) (wf_nodup c Hwf) Hp) as Ho.
    pose proof (elems_MoveToFront p (queue c)) as He.
    pose proof (next_MoveToFront p (queue c)) as Hn.
    destruct (List_MoveToFront p (queue c)); simpl in *. by subst. }
  apply wf_reorder; [done|]. apply filter_ne_perm; [apply Hwf|done].
Qed.

Lemma wf_push c k v :
  wf c → items c !! k = None →
  Z.of_nat (S (length (order (queue c)))) ≤ capacity c →
  wf (mkCache (capacity c)
        (mkList (<[next (queue c) := AnyItem (mkItem k v)]> (elems (queue c)))
                (next (queue c) :: order (queue c)) (S (next (queue c))))
        (<[k := Some (next (queue c))]> (items c)) false).
Proof.
  intros [Hmu Hcap Hlen Hnd Hfr [Hq Hi]] Hk Hfit.
  assert (next (queue c) ∉ order (queue c)) as Hnew.
  { intros Hin. apply Hfr in Hin. lia. }
  split; cbn [mutex capacity queue items order elems next length]; try done.
  - by apply NoDup_cons.
  - intros p [->|Hp]%elem_of_cons; [lia|]. apply Hfr in Hp. lia.
  - split; cbn [mutex capacity queue items order elems next].
    + intros p [->|Hp]%elem_of_cons.
      * exists (mkItem k v). simpl. by rewrite !lookup_insert_eq.
      * destruct (Hq p Hp) as (ci & He & Hci). exists ci.
        rewrite lookup_insert_ne by (intros <-; done).
        rewrite lookup_insert_ne by congruence. done.
    + intros k' e. destruct (decide (k = k')) as [<-|Hne].
      * rewrite lookup_insert_eq. intros [= <-].
        exists (next (queue c)), (mkItem k v). rewrite lookup_insert_eq.
        repeat split; try done. by left.
      * rewrite lookup_insert_ne by done. intros Hk'.
        destruct (Hi k' e Hk') as (p & ci & -> & Hp & He & Hkey).
        exists p, ci. rewrite lookup_insert_ne by (intros <-; done).
        repeat split; try done. by right.
Qed.

Lemma wf_push_evict c k v (ob : list nat) pb cib :
  wf c → items c !! k = None →
  order (queue c) = ob ++ [pb] →
  elems (queue c) !! pb = Some (AnyItem cib) →
  wf (mkCache (capacity c)
        (mkList (<[next (queue c) := AnyItem (mkItem k v)]> (elems (queue c)))
                (next (queue c) :: ob) (S (next (queue c))))
        (delete (key cib) (<[k := Some (next (queue c))]> (items c))) false).
Proof.
  intros [Hmu Hcap Hlen Hnd Hfr [Hq Hi]] Hk Hord Hb.
  rewrite Hord in Hlen, Hnd, Hfr, Hq, Hi.
  assert (next (queue c) ∉ ob) as Hnew.
  { intros Hin. assert (next (queue c) < next (queue c))%nat; [|lia].
    apply Hfr, elem_of_app. by left. }
  apply NoDup_app in Hnd as (Hndb & Hdisj & _).
  assert (pb ∉ ob) as Hpb.
  { intros Hin. apply (Hdisj pb Hin). by left. }
  assert (items c !! key cib = Some (Some pb)) as Hib.
  { destruct (Hq pb) as (ci & He & Hci); [apply elem_of_app; right; by left|].
    rewrite Hb in He. by injection He as <-. }
  assert (k ≠ key cib) as Hkb by congruence.
  rewrite length_app in Hlen. simpl in Hlen.
  split; cbn [mutex capacity queue items order elems next length]; try done.
  - lia.
  - by apply NoDup_cons.
  - intros p [->|Hp]%elem_of_cons; [lia|].
    assert (p < next (queue c))%nat; [|lia]. apply Hfr, elem_of_app. by left.
  - split; cbn [mutex capacity queue items order elems next].
    + intros p [->|Hp]%elem_of_cons.
      * exists (mkItem k v). simpl. rewrite lookup_insert_eq.
        rewrite lookup_delete_ne by done. by rewrite lookup_insert_eq.
      * destruct (Hq p) as (ci & He & Hci); [apply elem_of_app; by left|].
        exists ci. rewrite lookup_insert_ne by (intros <-; done).
        split; [done|].
        rewrite lookup_delete_ne by (intros Heq; rewrite <- Heq in Hci; congruence).
        rewrite lookup_insert_ne by congruence. done.
    + intros k' e. destruct (decide (key cib = k')) as [<-|Hne'].
      { by rewrite lookup_delete_eq. }
      rewrite lookup_delete_ne by done.
      destruct (decide (k = k')) as [<-|Hne].
      * rewrite lookup_insert_eq. intros [= <-].
        exists (next (queue c)), (mkItem k v). rewrite lookup_insert_eq.
        repeat split; try done. by left.
      * rewrite lookup_insert_ne by done. intros Hk'.
        destruct (Hi k' e Hk') as (p & ci & -> & Hp & He & Hkey).
        apply elem_of_app in Hp as [Hp|Hp%list_elem_of_singleton].
        -- exists p, ci. rewrite lookup_insert_ne by (intros <-; done).
           repeat split; try done. by right.
        -- subst p. rewrite Hb in He. injection He as <-. done.
Qed.

(** *** The recency ordering after each kind of step *)

Lemma item_at_insert_ne (l : List Key V) (o : list nat) (n : nat)
    p x (a : any Key V) :
  x ≠ p → item_at (mkList (<[p := a]> (elems l)) o n) x = item_at l x.
Proof. intros Hne. unfold item_at. simpl. by rewrite lookup_insert_ne. Qed.

Lemma entries_move c (l' : List Key V) p ci ci' :
  wf c → p ∈ order (queue c) →
  elems (queue c) !! p = Some (AnyItem ci) →
  item_at l' p = Some ci' →
  (∀ x, x ≠ p → item_at l' x = item_at (queue c) x) →
  omap (item_at l') (p :: filter (λ x, x ≠ p) (order (queue c))) =
  ci' :: filter (λ x, key x ≠ key ci) (entries c).
Proof.
  intros Hwf Hp He Hat' Hsame.
  change (omap (item_at l') (p :: ?t)) with
    (match item_at l' p with
     | Some y => y :: omap (item_at l') t
     | None => omap (item_at l') t
     end).
  rewrite Hat'. f_equal. unfold entries.
  apply omap_filter_corr. intros x Hx.
  destruct (wf_item_at c x Hwf Hx) as (y & Hy & Hey & Hiy).
  destruct (wf_item_at c p Hwf Hp) as (ci0 & _ & He0 & Hi0).
  rewrite He in He0. injection He0 as <-.
  exists y. split; [done|]. split.
  - split.
    + intros Hne Hkey. rewrite Hkey, Hi0 in Hiy. by injection Hiy as ->.
    + intros Hkey ->. rewrite He in Hey. by injection Hey as <-.
  - intros Hne. by rewrite Hsame.
Qed.

Lemma entries_push c k v (l : list nat) :
  wf c → (∀ x, x ∈ l → x ∈ order (queue c)) →
  omap (item_at (mkList (<[next (queue c) := AnyItem (mkItem k v)]> (elems (queue c)))
                        (next (queue c) :: l) (S (next (queue c)))))
       (next (queue c) :: l) =
  mkItem k v :: omap (item_at (queue c)) l.
Proof.
  intros Hwf Hl.
  change (omap ?f (next (queue c) :: l)) with
    (match f (next (queue c)) with
     | Some y => y :: omap f l
     | None => omap f l
     end).
  unfold item_at at 1. cbn [elems]. rewrite lookup_insert_eq. f_equal.
  apply omap_agree. intros x Hx.
  apply item_at_insert_ne. intros ->.
  apply Hl, (wf_fresh c Hwf) in Hx. lia.
Qed.

(** *** Specifications of [Get] and [Set] on well-formed caches *)

Lemma Get_hit_spec c k e :
  wf c → items c !! k = Some e →
  ∃ ci c', ci ∈ entries c ∧ key ci = k ∧
    lruCache_Get k c = Returned (value ci, true) c' ∧
    wf c' ∧ capacity c' = capacity c ∧ items c' = items c ∧
    entries c' = ci :: filter (λ x, key x ≠ k) (entries c).
Proof.
  intros Hwf Hk. destruct (wf_corr c Hwf) as [_ Hi].
  destruct (Hi k e Hk) as (p & ci & -> & Hp & He & Hkey).
  exists ci, (with_queue c (List_MoveToFront p (queue c))).
  split; [|split; [done|split; [|split; [|split; [done|split; [done|]]]]]].
  - apply elem_of_entries. exists p. split; [done|].
    unfold item_at. by rewrite He.
  - apply Get_hit; [apply Hwf|done..].
  - by apply wf_MoveToFront.
  - unfold entries. cbn [with_queue queue].
    rewrite order_MoveToFront by (done || apply Hwf). subst k.
    apply entries_move; try done.
    + unfold item_at. by rewrite elems_MoveToFront, He.
    + intros x _. unfold item_at. by rewrite elems_MoveToFront.
Qed.

Lemma Set_hit_spec c k v e :
  wf c → items c !! k = Some e →
  ∃ c', lruCache_Set k v c = Returned true c' ∧
    wf c' ∧ capacity c' = capacity c ∧ items c' = items c ∧
    entries c' = mkItem k v :: filter (λ x, key x ≠ k) (entries c).
Proof.
  intros Hwf Hk. destruct (wf_corr c Hwf) as [_ Hi].
  destruct (Hi k e Hk) as (p & ci & -> & Hp & He & Hkey).
  eexists. split; [apply (Set_hit c k v p ci); [apply Hwf|done..]|].
  pose proof (wf_update c p ci v Hwf Hp He) as Hwf'.
  set (l1 := mkList (<[p := AnyItem (mkItem (key ci) v)]> (elems (queue c)))
                    (order (queue c)) (next (queue c))) in *.
  split; [|split; [done|split; [done|]]].
  - apply (wf_MoveToFront _ p Hwf'). done.
  - unfold entries. cbn [with_queue queue].
    rewrite order_MoveToFront by (done || apply Hwf). subst k.
    apply entries_move; try done.
    + unfold item_at. rewrite elems_MoveToFront. simpl.
      by rewrite lookup_insert_eq.
    + intros x Hne. unfold item_at. rewrite elems_MoveToFront. simpl.
      by rewrite lookup_insert_ne.
Qed.

Lemma Set_miss_fits_spec c k v :
  wf c → items c !! k = None →
  Z.of_nat (length (entries c)) < capacity c →
  ∃ c', lruCache_Set k v c = Returned false c' ∧
    wf c' ∧ capacity c' = capacity c ∧
    entries c' = mkItem k v :: entries c.
Proof.
  intros Hwf Hk Hlen. rewrite wf_entries_length in Hlen by done.
  eexists. split; [apply Set_miss_fits; [apply Hwf|done|lia]|].
  split; [apply wf_push; [done..|lia]|]. split; [done|].
  unfold entries. cbn [queue order]. by apply entries_push.
Qed.

Lemma Set_miss_overflow_spec c k v :
  wf c → items c !! k = None →
  Z.of_nat (length (entries c)) = capacity c →
  ∃ es e1 c', entries c = es ++ [e1] ∧
    lruCache_Set k v c = Returned false c' ∧
    wf c' ∧ capacity c' = capacity c ∧
    entries c' = mkItem k v :: es.
Proof.
  intros Hwf Hk Hlen. rewrite wf_entries_length in Hlen by done.
  pose proof (wf_capacity c Hwf) as Hcap.
  assert (∃ ob pb, order (queue c) = ob ++ [pb]) as (ob & pb & Hord).
  { destruct (order (queue c)) as [|x t] using rev_ind; [simpl in Hlen; lia|].
    by exists t, x. }
  assert (pb ∈ order (queue c)) as Hpb.
  { rewrite Hord. apply elem_of_app. right. by left. }
  destruct (wf_item_at c pb Hwf Hpb) as (cib & Hat & Heb & Hib).
  assert (pb ≠ next (queue c)) as Hne.
  { apply (wf_fresh c Hwf) in Hpb. lia. }
  exists (omap (item_at (queue c)) ob), cib. eexists.
  split.
  { unfold entries. rewrite Hord, omap_app. f_equal.
    change (omap ?f [pb]) with (match f pb with Some y => [y] | None => [] end).
    by rewrite Hat. }
  split.
  { apply (Set_miss_overflow c k v pb cib); try done; try apply Hwf; try lia.
    rewrite Hord. apply last_snoc. }
  rewrite Hord, filter_cons_True by done.
  rewrite (filter_ne_last pb ob) by (rewrite <- Hord; apply Hwf).
  split; [by apply (wf_push_evict c k v ob pb cib)|]. split; [done|].
  unfold entries. cbn [queue order].
  rewrite <- (entries_push c k v ob Hwf); [done|].
  intros x Hx. rewrite Hord. apply elem_of_app. by left.
Qed.

Lemma Set_returns c k v :
  wf c → ∃ b c', lruCache_Set k v c = Returned b c' ∧
                 wf c' ∧ capacity c' = capacity c.
Proof.
  intros Hwf. destruct (items c !! k) as [e|] eqn:Hk.
  - destruct (Set_hit_spec c k v e Hwf Hk) as (c' & ? & ? & ? & _). eauto.
  - pose proof (wf_length c Hwf) as Hlen.
    rewrite <- wf_entries_length in Hlen by done.
    destruct (decide (Z.of_nat (length (entries c)) = capacity c)) as [Heq|Hlt].
    + destruct (Set_miss_overflow_spec c k v Hwf Hk Heq)
        as (? & ? & c' & _ & ? & ? & ? & _). eauto.
    + destruct (Set_miss_fits_spec c k v Hwf Hk) as (c' & ? & ? & ? & _);
        [lia|eauto].
Qed.

Lemma Get_returns c k :
  wf c → ∃ r c', lruCache_Get k c = Returned r c' ∧
                 wf c' ∧ capacity c' = capacity c.
Proof.
  intros Hwf. destruct (items c !! k) as [e|] eqn:Hk.
  - destruct (Get_hit_spec c k e Hwf Hk) as (ci & c' & _ & _ & ? & ? & ? & _).
    eauto.
  - exists (None, false), c. split; [|done].
    apply Get_miss; [apply Hwf|done].
Qed.

Lemma created_wf (C : Z) c : created C c → wf c ∧ capacity c = C.
Proof.
  induction 1 as [c Hnew|c k v b c' _ [Hwf Hcap] Hset|c k r c' _ [Hwf Hcap] Hget].
  - by apply wf_New.
  - destruct (Set_returns c k v Hwf) as (b' & c'' & Heq & Hwf' & Hcap').
    rewrite Hset in Heq. injection Heq as <- <-. split; [done|congruence].
  - destruct (Get_returns c k Hwf) as (r' & c'' & Heq & Hwf' & Hcap').
    rewrite Hget in Heq. injection Heq as <- <-. split; [done|congruence].
Qed.

Lemma entries_key_inj c ci ci' :
  wf c → ci ∈ entries c → ci' ∈ entries c → key ci = key ci' → ci = ci'.
Proof.
  intros Hwf (p & Hp & Hat)%elem_of_entries (p' & Hp' & Hat')%elem_of_entries Hkey.
  destruct (wf_item_at c p Hwf Hp) as (x & Hx & _ & Hi).
  destruct (wf_item_at c p' Hwf Hp') as (x' & Hx' & _ & Hi').
  rewrite Hat in Hx. injection Hx as <-.
  rewrite Hat' in Hx'. injection Hx' as <-.
  rewrite Hkey, Hi' in Hi. injection Hi as ->. congruence.
Qed.

Lemma Get_entry c ci :
  wf c → ci ∈ entries c →
  ∃ c', lruCache_Get (key ci) c = Returned (value ci, true) c' ∧
    wf c' ∧ capacity c' = capacity c ∧ items c' = items c ∧
    entries c' = ci :: filter (λ x, key x ≠ key ci) (entries c).
Proof.
  intros Hwf Hci.
  assert (is_Some (items c !! key ci)) as [e He].
  { apply wf_keys_index; [done|]. unfold keys. apply list_elem_of_fmap. eauto. }
  destruct (Get_hit_spec c (key ci) e Hwf He)
    as (ci' & c' & Hci' & Hkey & Hget & Hwf' & Hcap & Hit & Hent).
  assert (ci' = ci) as -> by (by apply (entries_key_inj c)).
  eauto 10.
Qed.

Lemma Get_present c k :
  wf c → k ∈ keys c →
  ∃ v c', lruCache_Get k c = Returned (v, true) c'.
Proof.
  intros Hwf (ci & -> & Hci)%list_elem_of_fmap.
  destruct (Get_entry c ci Hwf Hci) as (c' & Hget & _). eauto.
Qed.

Lemma Get_absent c k :
  wf c → k ∉ keys c → lruCache_Get k c = Returned (None, false) c.
Proof.
  intros Hwf Hk. apply Get_miss; [apply Hwf|].
  rewrite wf_keys_index in Hk by done.
  destruct (items c !! k); [|done]. exfalso. apply Hk. by eexists.
Qed.

Lemma run_returns (ops : list (op Key V)) c :
  wf c → ∃ c', run ops c = Returned () c' ∧ wf c' ∧ capacity c' = capacity c.
Proof.
  revert c. induction ops as [|o ops IH]; intros c Hwf.
  - by exists c.
  - assert (∃ c1, call o c = Returned () c1 ∧ wf c1 ∧ capacity c1 = capacity c)
      as (c1 & Hcall & Hwf1 & Hcap1).
    { destruct o as [k v|k]; unfold call, bind, ret.
      - destruct (Set_returns c k v Hwf) as (b & c1 & -> & ? & ?). eauto.
      - destruct (Get_returns c k Hwf) as (r & c1 & -> & ? & ?). eauto. }
    destruct (IH c1 Hwf1) as (c' & Hrun & Hwf' & Hcap').
    exists c'. cbn [run]. unfold bind at 1. rewrite Hcall.
    split; [done|]. split; [done|congruence].
Qed.

Lemma created_run (C : Z) (ops : list (op Key V)) c0 c :
  created C c0 → run ops c0 = Returned () c → created C c.
Proof.
  revert c0. induction ops as [|o ops IH]; intros c0 Hc0.
  - cbn [run]. unfold ret. by intros [= <-].
  - cbn [run]. unfold bind at 1.
    destruct (call o c0) as [[] c1| |] eqn:Hcall; try done.
    apply IH. destruct o as [k v|k]; unfold call, bind, ret in Hcall.
    + destruct (lruCache_Set k v c0) as [b c1'| |] eqn:Hset; try done.
      injection Hcall as <-. by eapply created_Set.
    + destruct (lruCache_Get k c0) as [r c1'| |] eqn:Hget; try done.
      injection Hcall as <-. by eapply created_Get.
Qed.

Lemma keys_filter (l : list (cacheItem Key V)) k :
  key <$> filter (λ x, key x ≠ k) l = filter (λ x, x ≠ k) (key <$> l).
Proof.
  induction l as [|x l IH]; [done|]. rewrite fmap_cons.
  destruct (decide (key x = k)) as [Heq|Hne].
  - rewrite !filter_cons_False by (intros Hn; by apply Hn). done.
  - rewrite !filter_cons_True by done. by rewrite fmap_cons, IH.
Qed.

Lemma Set_front c k v :
  wf c → ∃ b c' es, lruCache_Set k v c = Returned b c' ∧ wf c' ∧
                    entries c' = mkItem k v :: es.
Proof.
  intros Hwf. destruct (items c !! k) as [e|] eqn:Hk.
  - destruct (Set_hit_spec c k v e Hwf Hk) as (c' & ? & ? & _ & _ & ?). eauto 8.
  - pose proof (wf_length c Hwf) as Hlen.
    rewrite <- wf_entries_length in Hlen by done.
    destruct (decide (Z.of_nat (length (entries c)) = capacity c)) as [Heq|Hlt].
    + destruct (Set_miss_overflow_spec c k v Hwf Hk Heq)
        as (es & ? & c' & _ & ? & ? & _ & ?). eauto 8.
    + destruct (Set_miss_fits_spec c k v Hwf Hk) as (c' & ? & ? & _ & ?);
        [lia|eauto 8].
Qed.

(** An insert of a new key into a full cache drops the back of the
    ordering and nothing else. *)
Lemma overflow_evicts_back c (ks : list Key) (k1 k : Key) v :
  wf c → keys c = ks ++ [k1] →
  Z.of_nat (length (keys c)) = capacity c → k ∉ keys c →
  ∃ es e1 c', entries c = es ++ [e1] ∧ key e1 = k1 ∧
    lruCache_Set k v c = Returned false c' ∧ wf c' ∧
    capacity c' = capacity c ∧
    entries c' = mkItem k v :: es ∧ keys c' = k :: ks ∧
    lruCache_Get k1 c' = Returned (None, false) c' ∧
    (∀ k', k' ∈ k :: ks → ∃ v' c'', lruCache_Get k' c' = Returned (v', true) c'') ∧
    live c' = live c.
Proof.
  intros Hwf Hkeys Hfull Hk.
  assert (items c !! k = None) as Hik.
  { rewrite wf_keys_index in Hk by done.
    destruct (items c !! k); [|done]. exfalso. apply Hk. by eexists. }
  unfold keys in Hfull. rewrite length_fmap in Hfull.
  destruct (Set_miss_overflow_spec c k v Hwf Hik Hfull)
    as (es & e1 & c' & Hent & Hset & Hwf' & Hcap & Hent').
  assert (key <$> es = ks ∧ key e1 = k1) as [Hes He1].
  { unfold keys in Hkeys. rewrite Hent, fmap_app in Hkeys.
    by apply app_inj_tail in Hkeys. }
  assert (keys c' = k :: ks) as Hkeys'.
  { unfold keys. by rewrite Hent', fmap_cons, Hes. }
  exists es, e1, c'. repeat (split; [done|]). split; [|split].
  - apply Get_absent; [done|]. rewrite Hkeys'.
    pose proof (wf_nodup_keys c Hwf) as Hnd. rewrite Hkeys in Hnd.
    apply NoDup_app in Hnd as (_ & Hdisj & _).
    intros [->|Hin]%elem_of_cons.
    + apply Hk. rewrite Hkeys. apply elem_of_app. right. by left.
    + apply (Hdisj k1 Hin). by left.
  - intros k' Hk'. apply Get_present; [done|]. by rewrite Hkeys'.
  - rewrite !wf_live, <- !wf_entries_length by done.
    rewrite Hent, Hent', length_app. simpl. lia.
Qed.

(** *** The claims *)

(** C2 (P6, I2): for a capacity [C >= 1], every finite sequence of [Set]
    and [Get] calls on the cache [New C] runs to completion and leaves
    at most [C] keys present. *)
Theorem live_entries_at_most_capacity (C : Z) (ops : list (op Key V)) :
  1 ≤ C →
  ∃ c0 c, New C = inr c0 ∧ run ops c0 = Returned () c ∧
          Z.of_nat (live c) ≤ C ∧ Z.of_nat (length (keys c)) ≤ C.
Proof.
  intros HC. eexists. pose proof (New_returns C HC) as Hnew.
  destruct (wf_New C _ Hnew) as [Hwf0 Hcap0].
  destruct (run_returns ops _ Hwf0) as (c & Hrun & Hwf & Hcap).
  exists c. split; [done|]. split; [done|].
  pose proof (wf_length c Hwf) as Hlen.
  unfold keys. rewrite length_fmap, wf_live, wf_entries_length by done.
  rewrite Hcap, Hcap0 in Hlen. done.
Qed.

(** C4: on a cache created with capacity [C >= 1], [Set k v] returns and
    a [Get k] right after it returns [(v, true)]. *)
Theorem Get_after_Set_returns_value (C : Z) c k v :
  1 ≤ C → created C c →
  ∃ b c', lruCache_Set k v c = Returned b c' ∧
          ∃ c'', lruCache_Get k c' = Returned (v, true) c''.
Proof.
  intros _ [Hwf _]%created_wf.
  destruct (Set_front c k v Hwf) as (b & c' & es & Hset & Hwf' & Hent).
  exists b, c'. split; [done|].
  destruct (Get_entry c' (mkItem k v) Hwf') as (c'' & Hget & _).
  { rewrite Hent. by left. }
  by exists c''.
Qed.

(** C5 (P2): on a well-formed cache (every cache obtained from the
    constructor is one, [created_wf]), [Set] on a key already present
    returns [true], replaces the value in the element the index already
    points to (the index is unchanged), moves the key to the front of
    the ordering, evicts nothing and keeps the live count; [Get] then
    returns the new value. *)
Theorem Set_present_key_updates_in_place c k v2 :
  wf c → is_Some (items c !! k) →
  ∃ c', lruCache_Set k v2 c = Returned true c' ∧
    entries c' = mkItem k v2 :: filter (λ ci, key ci ≠ k) (entries c) ∧
    items c' = items c ∧
    (∀ k', k' ∈ keys c' ↔ k' ∈ keys c) ∧
    live c' = live c ∧
    ∃ c'', lruCache_Get k c' = Returned (v2, true) c''.
Proof.
  intros Hwf [e He].
  destruct (Set_hit_spec c k v2 e Hwf He) as (c' & Hset & Hwf' & _ & Hit & Hent).
  exists c'. repeat (split; [done|]). split; [|split].
  - intros k'. by rewrite !wf_keys_index, Hit.
  - unfold live. by rewrite Hit.
  - destruct (Get_entry c' (mkItem k v2) Hwf') as (c'' & Hget & _).
    { rewrite Hent. by left. }
    by exists c''.
Qed.

(** C6 (P5): [Get] of a key that is not in the index, on a cache whose
    mutex is free, returns the zero value and [false] and leaves the
    cache exactly as it was: ordering, live count and every stored
    binding. *)
Theorem Get_miss_is_noop c k :
  mutex c = false → items c !! k = None →
  lruCache_Get k c = Returned (None, false) c.
Proof. apply Get_miss. Qed.

(** C7 (P4), amended: [Get] on a present key moves that key to the
    front of the recency ordering and never evicts (it returns the
    stored value; index and live count are unchanged); and when the full
    cache holds at least two keys, a [Get] of the least recently used
    key [k1] followed by the [Set] of a new key keeps [k1], with its
    value, and evicts [k2], the key that became least recently used. *)
Theorem Get_hit_protects_when_two_keys (C : Z) c :
  created C c →
  (∀ k, k ∈ keys c →
     ∃ ci c', ci ∈ entries c ∧ key ci = k ∧
       lruCache_Get k c = Returned (value ci, true) c' ∧
       entries c' = ci :: filter (λ x, key x ≠ k) (entries c) ∧
       keys c' = k :: filter (λ x, x ≠ k) (keys c) ∧
       items c' = items c ∧ live c' = live c) ∧
  (∀ (ks : list Key) k2 k1 k v,
     keys c = ks ++ [k2; k1] →
     Z.of_nat (length (keys c)) = C → k ∉ keys c →
     ∃ e1 c1 c2, e1 ∈ entries c ∧ key e1 = k1 ∧
       lruCache_Get k1 c = Returned (value e1, true) c1 ∧
       keys c1 = k1 :: ks ++ [k2] ∧
       lruCache_Set k v c1 = Returned false c2 ∧
       keys c2 = k :: k1 :: ks ∧
       (∃ c3, lruCache_Get k1 c2 = Returned (value e1, true) c3) ∧
       lruCache_Get k2 c2 = Returned (None, false) c2).
Proof.
  intros [Hwf Hcap]%created_wf.
  assert (∀ k, k ∈ keys c →
     ∃ ci c', ci ∈ entries c ∧ key ci = k ∧
       lruCache_Get k c = Returned (value ci, true) c' ∧ wf c' ∧
       capacity c' = capacity c ∧
       entries c' = ci :: filter (λ x, key x ≠ k) (entries c) ∧
       keys c' = k :: filter (λ x, x ≠ k) (keys c) ∧
       items c' = items c ∧ live c' = live c) as Hhit.
  { intros k (ci & -> & Hci)%list_elem_of_fmap.
    destruct (Get_entry c ci Hwf Hci) as (c' & Hget & Hwf' & Hcap' & Hit & Hent).
    exists ci, c'. repeat (split; [done|]). split; [|split; [done|]].
    - unfold keys at 1. by rewrite Hent, fmap_cons, keys_filter.
    - unfold live. by rewrite Hit. }
  split.
  { intros k Hk.
    destruct (Hhit k Hk) as (ci & c' & ? & ? & ? & _ & _ & ? & ? & ? & ?).
    eauto 12. }
  intros ks k2 k1 k v Hkeys Hfull Hk.
  pose proof (wf_nodup_keys c Hwf) as Hnd.
  assert (keys c = (ks ++ [k2]) ++ [k1]) as Hkeys2.
  { by rewrite Hkeys, <- app_assoc. }
  destruct (Hhit k1)
    as (e1 & c1 & He1 & Hkey1 & Hget & Hwf1 & Hcap1 & Hent1 & Hkeys1 & _ & _).
  { rewrite Hkeys2. apply elem_of_app. right. by left. }
  rewrite Hkeys2, (filter_ne_last k1 (ks ++ [k2])) in Hkeys1
    by (by rewrite <- Hkeys2).
  destruct (overflow_evicts_back c1 (k1 :: ks) k2 k v Hwf1)
    as (es & elast & c2 & Hsplit & _ & Hset & Hwf2 & _ & Hent2 & Hkeys' & Hmiss & _ & _).
  { done. }
  { rewrite Hcap1, Hcap, <- Hfull, Hkeys1, Hkeys2.
    rewrite !length_app. simpl. rewrite length_app. simpl. lia. }
  { rewrite Hkeys1. rewrite Hkeys2 in Hk.
    intros [->|Hin]%elem_of_cons; apply Hk; apply elem_of_app; [right; by left|by left]. }
  exists e1, c1, c2. repeat (split; [done|]). split; [|done].
  assert (e1 ∈ es) as Hin.
  { rewrite Hent1 in Hsplit. destruct es as [|e es'].
    - exfalso. cbn [app] in Hsplit. injection Hsplit as _ Hnil.
      unfold keys in Hkeys1. rewrite Hent1, Hnil, fmap_cons in Hkeys1.
      injection Hkeys1 as _ Hks. by destruct ks.
    - cbn [app] in Hsplit. injection Hsplit as -> _. by left. }
  destruct (Get_entry c2 e1 Hwf2) as (c3 & Hget3 & _).
  { rewrite Hent2. by right. }
  rewrite Hkey1 in Hget3. by exists c3.
Qed.

(** C8: [New C] fails with [InvalidCapacity] exactly when [C < 1] and
    otherwise returns an empty cache of capacity [C]; on a cache so
    created every [Set] and every [Get] returns normally, a miss and an
    overflow included. *)
Theorem InvalidCapacity_is_the_only_error :
  (∀ C : Z, New (Key:=Key) (V:=V) C = inl InvalidCapacity ↔ C < 1) ∧
  (∀ C : Z, 1 ≤ C →
     ∃ c, New C = inr c ∧ capacity c = C ∧
          entries c = [] ∧ items c = ∅ ∧ live c = 0%nat) ∧
  (∀ (C : Z) c k v, created C c →
     (∃ b c', lruCache_Set k v c = Returned b c') ∧
     (∃ r c', lruCache_Get k c = Returned r c')).
Proof.
  split; [apply New_fails_iff|]. split.
  - intros C HC. eexists. split; [by apply New_returns|]. done.
  - intros C c k v [Hwf _]%created_wf. split.
    + destruct (Set_returns c k v Hwf) as (b & c' & ? & _). eauto.
    + destruct (Get_returns c k Hwf) as (r & c' & ? & _). eauto.
Qed.

(** C10: on every cache obtained from the constructor, each queue
    element stores a [cacheItem] whose key is the index key pointing to
    that element; every [Set] and every [Get] returns without a panic of
    its type assertion and re-establishes the correspondence. *)
Theorem index_queue_correspondence_preserved (C : Z) c :
  created C c →
  index_queue_corr c ∧
  ∀ k v,
    (∃ b c', lruCache_Set k v c = Returned b c' ∧ index_queue_corr c') ∧
    (∃ r c', lruCache_Get k c = Returned r c' ∧ index_queue_corr c').
Proof.
  intros [Hwf _]%created_wf. split; [apply Hwf|]. intros k v. split.
  - destruct (Set_returns c k v Hwf) as (b & c' & ? & Hwf' & _).
    exists b, c'. split; [done|apply Hwf'].
  - destruct (Get_returns c k Hwf) as (r & c' & ? & Hwf' & _).
    exists r, c'. split; [done|apply Hwf'].
Qed.

(** *** The mutex on each exit path *)

(** X7: [Get] defers the unlock: whether it returns or panics, the
    mutex it found free is free again. *)
Lemma Get_releases_mutex c k :
  mutex c = false →
  match lruCache_Get k c with
  | Returned _ c' => mutex c' = false
  | Panicked c' => mutex c' = false
  | Blocked => False
  end.
Proof.
  destruct c as [cap q it mu]. simpl. intros ->. run_ops.
  destruct (it !! k) as [[p|]|]; simpl; try done.
  destruct (elems (List_MoveToFront p q) !! p) as [[ci|o]|]; simpl; done.
Qed.

(** X8: [Set] unlocks by a plain statement before its [return]: the
    mutex is free again when [Set] returns... *)
Lemma Set_returned_releases_mutex c k v b c' :
  mutex c = false → lruCache_Set k v c = Returned b c' → mutex c' = false.
Proof.
  destruct c as [cap q it mu]. simpl. intros ->. run_ops.
  repeat (case_match; simpl in *; simplify_eq; try done);
    intros; simplify_eq; done.
Qed.

(** ... and still held whenever its body panics. *)
Lemma Set_panicked_keeps_mutex c k v c' :
  mutex c = false → lruCache_Set k v c = Panicked c' → mutex c' = true.
Proof.
  destruct c as [cap q it mu]. simpl. intros ->. run_ops.
  repeat (case_match; unfold ret, panic in *; simpl in *; simplify_eq; try done);
    intros; simplify_eq; done.
Qed.

(** *** The queue order is the order of last touch *)

Lemma keys_call c (o : op Key V) c' :
  wf c → call o c = Returned () c' →
  wf c' ∧ capacity c' = capacity c ∧
  keys c' = recency_touch (Z.to_nat (capacity c)) (keys c) o.
Proof.
  intros Hwf Hcall.
  pose proof (wf_nodup_keys c Hwf) as Hnd.
  pose proof (wf_length c Hwf) as Hlen.
  rewrite <- wf_entries_length, <- (length_fmap key) in Hlen by done.
  fold (keys c) in Hlen.
  destruct o as [k v|k]; unfold call, bind, ret in Hcall; cbn [recency_touch].
  - destruct (items c !! k) as [e|] eqn:Hk.
    + destruct (Set_hit_spec c k v e Hwf Hk) as (c1 & Hset & Hwf1 & Hcap1 & _ & Hent).
      rewrite Hset in Hcall. injection Hcall as <-.
      repeat (split; [done|]).
      assert (k ∈ keys c) as Hin by (apply wf_keys_index; [done|by eexists]).
      unfold keys at 1. rewrite Hent, fmap_cons, keys_filter. cbn [key].
      fold (keys c). rewrite take_ge; [done|].
      cbn [length]. rewrite length_filter_ne by done. lia.
    + assert (k ∉ keys c) as Hnin.
      { rewrite wf_keys_index, Hk by done. by intros [? ?]. }
      rewrite (filter_ne_notin k (keys c)) by done.
      destruct (decide (Z.of_nat (length (entries c)) = capacity c)) as [Heq|Hlt].
      * destruct (Set_miss_overflow_spec c k v Hwf Hk Heq)
          as (es & e1 & c1 & Hent & Hset & Hwf1 & Hcap1 & Hent1).
        rewrite Hset in Hcall. injection Hcall as <-.
        repeat (split; [done|]).
        unfold keys. rewrite Hent1, Hent, fmap_cons, fmap_app. cbn [key].
        rewrite app_comm_cons. symmetry. apply take_app_length'.
        rewrite Hent, length_app in Heq. cbn [length] in *.
        rewrite length_fmap. lia.
      * unfold keys in Hlen. rewrite length_fmap in Hlen.
        destruct (Set_miss_fits_spec c k v Hwf Hk)
          as (c1 & Hset & Hwf1 & Hcap1 & Hent1); [lia|].
        rewrite Hset in Hcall. injection Hcall as <-.
        repeat (split; [done|]).
        unfold keys. rewrite Hent1, fmap_cons. cbn [key].
        rewrite take_ge; [done|]. cbn [length]. rewrite length_fmap. lia.
  - destruct (decide (k ∈ keys c)) as [Hin|Hnin].
    + apply list_elem_of_fmap in Hin as (ci & -> & Hci).
      destruct (Get_entry c ci Hwf Hci) as (c1 & Hget & Hwf1 & Hcap1 & _ & Hent).
      rewrite Hget in Hcall. injection Hcall as <-.
      repeat (split; [done|]).
      unfold keys at 1. by rewrite Hent, fmap_cons, keys_filter.
    + rewrite (Get_absent c k Hwf Hnin) in Hcall. by injection Hcall as <-.
Qed.

Lemma keys_run (ops : list (op Key V)) c c' :
  wf c → run ops c = Returned () c' →
  keys c' = foldl (recency_touch (Z.to_nat (capacity c))) (keys c) ops.
Proof.
  revert c. induction ops as [|o ops IH]; intros c Hwf.
  - cbn [run foldl]. unfold ret. by intros [= <-].
  - cbn [run foldl]. unfold bind at 1.
    destruct (call o c) as [[] c1| |] eqn:Hcall; try done.
    destruct (keys_call c o c1 Hwf Hcall) as (Hwf1 & Hcap1 & Hkeys1).
    intros Hrun. rewrite (IH c1 Hwf1 Hrun). by rewrite Hcap1, Hkeys1.
Qed.

(** After any sequence of calls on [New C], the queue lists the keys by
    last touch, most recent first, cut at the capacity. *)
Lemma keys_refine_recency_spec (C : Z) (ops : list (op Key V)) c0 c :
  New C = inr c0 → run ops c0 = Returned () c →
  keys c = recency_spec (Z.to_nat C) ops.
Proof.
  intros Hnew Hrun. destruct (wf_New C c0 Hnew) as [Hwf0 Hcap0].
  rewrite (keys_run ops c0 c Hwf0 Hrun), Hcap0.
  apply New_inr in Hnew as [_ ->]. done.
Qed.

(** *** Further properties of [Set] and [Get] *)

Lemma MoveToFront_linked p (l : List Key V) :
  NoDup (order l) → p ∈ order l →
  List_MoveToFront p l =
  mkList (elems l) (p :: filter (λ x, x ≠ p) (order l)) (next l).
Proof.
  intros Hnd Hp.
  pose proof (order_MoveToFront p l Hnd Hp) as Ho.
  pose proof (elems_MoveToFront p l) as He.
  pose proof (next_MoveToFront p l) as Hn.
  destruct (List_MoveToFront p l); simpl in *. by subst.
Qed.

Lemma MoveToFront_at_front p (l : List Key V) :
  head (order l) = Some p → List_MoveToFront p l = l.
Proof.
  intros Hh. unfold List_MoveToFront.
  rewrite (bool_decide_eq_true_2 (head (order l) = Some p)) by done.
  by rewrite orb_true_r.
Qed.

Lemma MoveToFront_twice p (l : List Key V) :
  List_MoveToFront p (List_MoveToFront p l) = List_MoveToFront p l.
Proof.
  unfold List_MoveToFront at 2.
  destruct (bool_decide _ || bool_decide _) eqn:Hb.
  - unfold List_MoveToFront. by rewrite Hb.
  - rewrite MoveToFront_at_front by done.
    unfold List_MoveToFront. by rewrite Hb.
Qed.

Lemma filter_key_perm (l : list (cacheItem Key V)) ci :
  NoDup (key <$> l) → ci ∈ l →
  ci :: filter (λ x, key x ≠ key ci) l ≡ₚ l.
Proof.
  induction l as [|x l IH]; intros Hnd Hin; [by apply elem_of_nil in Hin|].
  rewrite fmap_cons in Hnd. apply NoDup_cons in Hnd as [Hx Hnd].
  apply elem_of_cons in Hin as [->|Hin].
  - rewrite filter_cons_False by (intros Hn; by apply Hn).
    assert (filter (λ y, key y ≠ key x) l = l) as ->; [|done].
    clear IH Hnd. induction l as [|y l IH]; [done|].
    rewrite fmap_cons in Hx. apply not_elem_of_cons in Hx as [Hne Hx].
    rewrite filter_cons_True by done. by rewrite IH.
  - assert (key x ≠ key ci) as Hne.
    { intros Heq. apply Hx. rewrite Heq. apply list_elem_of_fmap. eauto. }
    rewrite filter_cons_True by done.
    rewrite Permutation_swap. by rewrite IH.
Qed.

(** What [Get] returns is read off the ordering. *)
Lemma Get_result_of_entries c c' k :
  wf c → wf c' → entries c' ≡ₚ entries c →
  ∃ r c1 c2, lruCache_Get k c = Returned r c1 ∧
             lruCache_Get k c' = Returned r c2.
Proof.
  intros Hwf Hwf' Hperm. destruct (decide (k ∈ keys c)) as [Hin|Hnin].
  - apply list_elem_of_fmap in Hin as (ci & -> & Hci).
    destruct (Get_entry c ci Hwf Hci) as (c1 & Hget & _).
    destruct (Get_entry c' ci Hwf') as (c2 & Hget' & _); [by rewrite Hperm|].
    eauto.
  - exists (None, false), c, c'. split; [by apply Get_absent|].
    apply Get_absent; [done|]. unfold keys in *. by rewrite Hperm.
Qed.

(** X1: on a well-formed cache [Set k v] returns and leaves the entry
    [(k, v)] at the front of the recency queue, whether or not the key
    was there before. *)
Theorem Set_puts_entry_at_front c k v :
  wf c →
  ∃ b c', lruCache_Set k v c = Returned b c' ∧
          head (entries c') = Some (mkItem k v) ∧ head (keys c') = Some k.
Proof.
  intros Hwf. destruct (Set_front c k v Hwf) as (b & c' & es & Hset & _ & Hent).
  exists b, c'. split; [done|]. unfold keys. by rewrite Hent.
Qed.

(** X2: whenever [Set] returns, its result says whether the key was in
    the index when it was called. *)
Theorem Set_reports_presence c k v b c' :
  mutex c = false → lruCache_Set k v c = Returned b c' →
  b = bool_decide (is_Some (items c !! k)).
Proof.
  destruct c as [cap q it mu]. simpl. intros ->. run_ops.
  destruct (it !! k) as [e|] eqn:Hk.
  - rewrite (bool_decide_eq_true_2 (is_Some (Some e))) by (by eexists).
    simpl. repeat (case_match; unfold ret, panic in *; simpl in *; simplify_eq; try done);
      intros; simplify_eq; done.
  - rewrite (bool_decide_eq_false_2 (is_Some None)) by (by intros [? ?]).
    simpl. repeat (case_match; unfold ret, panic in *; simpl in *; simplify_eq; try done);
      intros; simplify_eq; done.
Qed.

(** X3: [Set] of a key that is not present, into a cache with a free
    slot, evicts nothing: the new entry goes in front of the unchanged
    ordering and the live count grows by one. *)
Theorem Set_new_key_with_room_keeps_all c k v :
  wf c → items c !! k = None → Z.of_nat (live c) < capacity c →
  ∃ c', lruCache_Set k v c = Returned false c' ∧
        entries c' = mkItem k v :: entries c ∧
        live c' = S (live c).
Proof.
  intros Hwf Hk Hroom. rewrite wf_live, <- wf_entries_length in Hroom by done.
  destruct (Set_miss_fits_spec c k v Hwf Hk Hroom) as (c' & Hset & Hwf' & _ & Hent).
  exists c'. repeat (split; [done|]).
  rewrite !wf_live, <- !wf_entries_length by done. by rewrite Hent.
Qed.

(** X4: a [Get] changes no binding: it permutes the ordering, leaves
    the index as it was, and every later [Get] returns what it would
    have returned before. *)
Theorem Get_keeps_every_binding c k r c' :
  wf c → lruCache_Get k c = Returned r c' →
  entries c' ≡ₚ entries c ∧ items c' = items c ∧
  ∀ k', ∃ r' c1 c2, lruCache_Get k' c = Returned r' c1 ∧
                    lruCache_Get k' c' = Returned r' c2.
Proof.
  intros Hwf Hget.
  assert (wf c' ∧ entries c' ≡ₚ entries c ∧ items c' = items c) as (Hwf' & Hperm & Hit).
  { destruct (decide (k ∈ keys c)) as [Hin|Hnin].
    - apply list_elem_of_fmap in Hin as (ci & -> & Hci).
      destruct (Get_entry c ci Hwf Hci) as (c1 & Hget1 & Hwf1 & _ & Hit1 & Hent1).
      rewrite Hget in Hget1. injection Hget1 as _ Hc. subst c1.
      split; [done|]. split; [|done].
      rewrite Hent1. apply filter_key_perm; [|done].
      apply (wf_nodup_keys c Hwf).
    - rewrite (Get_absent c k Hwf Hnin) in Hget. by injection Hget as <- <-. }
  split; [done|]. split; [done|].
  intros k'. by apply Get_result_of_entries.
Qed.

(** X5: a second [Get] of the same key returns the same result and
    leaves the cache as the first one left it. *)
Theorem Get_twice_is_Get_once c k r c' :
  mutex c = false → lruCache_Get k c = Returned r c' →
  lruCache_Get k c' = Returned r c'.
Proof.
  intros Hmu Hget. destruct (items c !! k) as [[p|]|] eqn:Hk.
  - destruct (elems (queue c) !! p) as [[ci|o]|] eqn:He.
    + rewrite (Get_hit c k p ci Hmu Hk He) in Hget. injection Hget as <- <-.
      rewrite (Get_hit _ k p ci); cbn [with_queue mutex items queue]; try done.
      * by rewrite MoveToFront_twice.
      * by rewrite elems_MoveToFront.
    + exfalso. revert Hget. destruct c as [cap q it mu]. simpl in *. subst mu.
      run_ops. rewrite Hk. simpl. by rewrite elems_MoveToFront, He.
    + exfalso. revert Hget. destruct c as [cap q it mu]. simpl in *. subst mu.
      run_ops. rewrite Hk. simpl. by rewrite elems_MoveToFront, He.
  - exfalso. revert Hget. destruct c as [cap q it mu]. simpl in *. subst mu.
    run_ops. by rewrite Hk.
  - rewrite (Get_miss c k Hmu Hk) in Hget. injection Hget as <- <-.
    by apply Get_miss.
Qed.

(** X6: the last write wins.  Writing [v] and then [v'] under the same
    key leaves the cache in the very state a single write of [v'] leaves
    it in; the second write finds the key present. *)
Theorem Set_twice_is_last_Set c k v v' :
  wf c →
  ∃ b c1 c2, lruCache_Set k v c = Returned b c1 ∧
             lruCache_Set k v' c = Returned b c2 ∧
             lruCache_Set k v' c1 = Returned true c2.
Proof.
  intros Hwf. pose proof (wf_unlocked c Hwf) as Hmu.
  pose proof (wf_nodup c Hwf) as Hnd.
  destruct (items c !! k) as [e|] eqn:Hk.
  - (* the key is present: both writes update the same element *)
    destruct (wf_corr c Hwf) as [_ Hi].
    destruct (Hi k e Hk) as (p & ci & -> & Hp & He & Hkey).
    eexists true, _, _.
    split; [apply (Set_hit c k v p ci); done|].
    split; [apply (Set_hit c k v' p ci); done|].
    rewrite !MoveToFront_linked by done. cbn [elems order next].
    rewrite (Set_hit _ k v' p (mkItem (key ci) v));
      cbn [with_queue mutex items queue elems order next]; try done.
    + rewrite insert_insert_eq.
      by rewrite MoveToFront_at_front.
    + by rewrite lookup_insert_eq.
  - pose proof (wf_length c Hwf) as Hlen.
    destruct (decide (Z.of_nat (length (order (queue c))) = capacity c)) as [Heq|Hlt].
    + (* a new key into a full cache *)
      pose proof (wf_capacity c Hwf) as Hcap.
      assert (∃ ob pb, order (queue c) = ob ++ [pb]) as (ob & pb & Hord).
      { destruct (order (queue c)) as [|x t] using rev_ind; [simpl in Heq; lia|].
        by exists t, x. }
      assert (pb ∈ order (queue c)) as Hpb.
      { rewrite Hord. apply elem_of_app. right. by left. }
      destruct (wf_item_at c pb Hwf Hpb) as (cib & _ & Heb & Hib).
      assert (pb ≠ next (queue c)) as Hne.
      { apply (wf_fresh c Hwf) in Hpb. lia. }
      assert (last (order (queue c)) = Some pb) as Hlast.
      { rewrite Hord. apply last_snoc. }
      assert (k ≠ key cib) as Hkb by congruence.
      eexists false, _, _.
      split; [apply (Set_miss_overflow c k v pb cib); try done; lia|].
      split; [apply (Set_miss_overflow c k v' pb cib); try done; lia|].
      rewrite filter_cons_True by done.
      rewrite (Set_hit _ k v' (next (queue c)) (mkItem k v));
        cbn [with_queue mutex items queue elems order next]; try done.
      * rewrite insert_insert_eq. by rewrite MoveToFront_at_front.
      * rewrite lookup_delete_ne by done. by rewrite lookup_insert_eq.
      * by rewrite lookup_insert_eq.
    + (* a new key into a cache with room *)
      eexists false, _, _.
      split; [apply (Set_miss_fits c k v); try done; lia|].
      split; [apply (Set_miss_fits c k v'); try done; lia|].
      rewrite (Set_hit _ k v' (next (queue c)) (mkItem k v));
        cbn [with_queue mutex items queue elems order next]; try done.
      * rewrite insert_insert_eq. by rewrite MoveToFront_at_front.
      * by rewrite lookup_insert_eq.
      * by rewrite lookup_insert_eq.
Qed.

(** X9: the invariants of a cache obtained from the constructor: it is
    unlocked and of the capacity it was created with, no key occurs
    twice in the recency queue, the keys of the queue are exactly the
    keys of the index, and their number is the live count. *)
Theorem created_cache_invariants (C : Z) c :
  created C c →
  mutex c = false ∧ capacity c = C ∧
  NoDup (keys c) ∧
  (∀ k, k ∈ keys c ↔ is_Some (items c !! k)) ∧
  live c = length (keys c).
Proof.
  intros [Hwf Hcap]%created_wf.
  split; [apply Hwf|]. split; [done|].
  split; [by apply wf_nodup_keys|].
  split; [intros k; by apply wf_keys_index|].
  unfold keys. rewrite length_fmap, wf_entries_length by done.
  by apply wf_live.
Qed.

(** *** The back of the queue is the least recently touched key *)

Lemma last_touch_snoc (ops : list (op Key V)) (o : op Key V) k :
  last_touch (ops ++ [o]) k =
  if touches o k then S (length ops) else last_touch ops k.
Proof.
  induction ops as [|o' ops IH]; cbn [app last_touch length].
  - by destruct (touches o k).
  - rewrite IH. by destruct (touches o k).
Qed.

Lemma last_touch_le (ops : list (op Key V)) k :
  (last_touch ops k ≤ length ops)%nat.
Proof.
  induction ops as [|o ops IH]; cbn [last_touch length]; [lia|].
  destruct (last_touch ops k); [destruct (touches o k)|]; lia.
Qed.

Lemma run_snoc (ops : list (op Key V)) (o : op Key V) c0 c :
  run (ops ++ [o]) c0 = Returned () c →
  ∃ cm, run ops c0 = Returned () cm ∧ call o cm = Returned () c.
Proof.
  revert c0. induction ops as [|o' ops IH]; intros c0; cbn [app run].
  - unfold bind at 1. destruct (call o c0) as [[] c1| |] eqn:Hcall; try done.
    unfold ret. intros [= <-]. by exists c0.
  - unfold bind at 1. destruct (call o' c0) as [[] c1| |] eqn:Hcall; try done.
    intros Hrun. destruct (IH c1 Hrun) as (cm & Hrun' & Hcm).
    exists cm. split; [|done]. unfold bind at 1. by rewrite Hcall.
Qed.

Lemma sorted_filter_mono (R R' : relation Key) (P : Key → Prop)
    `{∀ x, Decision (P x)} (l : list Key) :
  StronglySorted R l →
  (∀ x y, P x → P y → R x y → R' x y) →
  StronglySorted R' (filter P l).
Proof.
  intros Hs Hmono. induction Hs as [|x l Hs IH Hall]; [constructor|].
  destruct (decide (P x)) as [HP|HP].
  - rewrite filter_cons_True by done. constructor; [done|].
    apply Forall_forall. intros y [Hy HPy]%list_elem_of_filter.
    apply Hmono; try done. rewrite Forall_forall in Hall. by apply Hall.
  - by rewrite filter_cons_False.
Qed.

Lemma sorted_take (R : relation Key) (l : list Key) (n : nat) :
  StronglySorted R l → StronglySorted R (take n l).
Proof.
  intros Hs. revert n. induction Hs as [|x l Hs IH Hall]; intros [|n];
    cbn [take]; try constructor; [apply IH|by apply Forall_take].
Qed.

Lemma sorted_app_rel (R : relation Key) (l1 l2 : list Key) x y :
  StronglySorted R (l1 ++ l2) → x ∈ l1 → y ∈ l2 → R x y.
Proof.
  induction l1 as [|z l1 IH]; intros Hs Hx Hy; [by apply elem_of_nil in Hx|].
  cbn [app] in Hs. apply StronglySorted_inv in Hs as [Hs Hall].
  apply elem_of_cons in Hx as [->|Hx]; [|by apply IH].
  rewrite Forall_forall in Hall. apply Hall, elem_of_app. by right.
Qed.

(** After any history of calls on a new cache, the queue lists the
    present keys by the time of their last touch, latest first. *)
Lemma keys_sorted_by_last_touch (C : Z) (ops : list (op Key V)) c0 c :
  New C = inr c0 → run ops c0 = Returned () c →
  wf c ∧ capacity c = C ∧
  StronglySorted (λ x y, (last_touch ops y < last_touch ops x)%nat) (keys c).
Proof.
  intros Hnew. revert c. induction ops as [|o ops IH] using rev_ind; intros c Hrun.
  - cbn [run] in Hrun. unfold ret in Hrun. injection Hrun as <-.
    destruct (wf_New C c0 Hnew) as [Hwf Hcap]. repeat (split; [done|]).
    apply New_inr in Hnew as [_ ->]. constructor.
  - apply run_snoc in Hrun as (cm & Hrun & Hcall).
    destruct (IH cm Hrun) as (Hwfm & Hcapm & Hsorted).
    destruct (keys_call cm o c Hwfm Hcall) as (Hwf & Hcap & Hkeys).
    split; [done|]. split; [congruence|]. rewrite Hkeys.
    assert (∀ k, touches o k = true →
              StronglySorted
                (λ x y, (last_touch (ops ++ [o]) y < last_touch (ops ++ [o]) x)%nat)
                (k :: filter (λ x, x ≠ k) (keys cm))) as Hfront.
    { intros k Hk. constructor.
      - apply (sorted_filter_mono _ _ _ _ Hsorted). intros x y Hx Hy Hxy.
        rewrite !last_touch_snoc.
        assert (touches o x = false) as ->.
        { destruct o; cbn [touches] in *; apply bool_decide_eq_true_1 in Hk;
            apply bool_decide_eq_false_2; congruence. }
        assert (touches o y = false) as ->; [|done].
        destruct o; cbn [touches] in *; apply bool_decide_eq_true_1 in Hk;
          apply bool_decide_eq_false_2; congruence.
      - apply Forall_forall. intros y [Hy _]%list_elem_of_filter.
        rewrite !last_touch_snoc, Hk.
        assert (touches o y = false) as ->.
        { destruct o; cbn [touches] in *; apply bool_decide_eq_true_1 in Hk;
            apply bool_decide_eq_false_2; congruence. }
        pose proof (last_touch_le ops y). lia. }
    destruct o as [k v|k]; cbn [recency_touch].
    + apply sorted_take, Hfront. cbn [touches]. by apply bool_decide_eq_true_2.
    + destruct (decide (k ∈ keys cm)) as [Hin|Hnin].
      * apply Hfront. cbn [touches]. by apply bool_decide_eq_true_2.
      * rewrite <- (filter_ne_notin k (keys cm) Hnin).
        apply (sorted_filter_mono _ _ _ _ Hsorted). intros x y Hx Hy Hxy.
        rewrite !last_touch_snoc. cbn [touches].
        rewrite !bool_decide_eq_false_2 by congruence. done.
Qed.

(** C1 (P3): take a cache created with capacity [C], after any history
    of calls, that holds exactly [C] keys, and let [k1] be the present
    key whose last touch, by [Set] or [Get], is the oldest.  Then [k1]
    is at the back of the recency queue, and [Set] of a new key [k]
    returns [false] and evicts exactly that entry: the ordering becomes
    [k] followed by the former entries without the last one, [Get k1]
    then misses, every other key and [k] are found with their values,
    and the number of live keys is unchanged (one insert, one
    eviction). *)
Theorem Set_overflow_evicts_exactly_LRU (C : Z) (ops : list (op Key V))
    c0 c (k1 k : Key) v :
  New C = inr c0 → run ops c0 = Returned () c →
  Z.of_nat (live c) = C →
  is_Some (items c !! k1) →
  (∀ k', is_Some (items c !! k') → k' ≠ k1 →
         (last_touch ops k1 < last_touch ops k')%nat) →
  items c !! k = None →
  ∃ ks es e1 c', keys c = ks ++ [k1] ∧
    entries c = es ++ [e1] ∧ key e1 = k1 ∧
    lruCache_Set k v c = Returned false c' ∧
    entries c' = mkItem k v :: es ∧ keys c' = k :: ks ∧
    lruCache_Get k1 c' = Returned (None, false) c' ∧
    (∀ ci, ci ∈ mkItem k v :: es →
           ∃ c'', lruCache_Get (key ci) c' = Returned (value ci, true) c'') ∧
    (∀ k', k' ∈ k :: ks → ∃ v' c'', lruCache_Get k' c' = Returned (v', true) c'') ∧
    live c' = live c.
Proof.
  intros Hnew Hrun Hfull Hk1 Hleast Hk.
  destruct (keys_sorted_by_last_touch C ops c0 c Hnew Hrun) as (Hwf & Hcap & Hsorted).
  assert (∃ ks, keys c = ks ++ [k1]) as [ks Hkeys].
  { apply (wf_keys_index c k1 Hwf) in Hk1.
    destruct (keys c) as [|kl ks _] eqn:Hks using rev_ind;
      [by apply elem_of_nil in Hk1|].
    exists ks. destruct (decide (kl = k1)) as [->|Hne]; [done|].
    apply elem_of_app in Hk1 as [Hin|Hin%list_elem_of_singleton]; [|congruence].
    assert (last_touch ops kl < last_touch ops k1)%nat as H1.
    { apply (sorted_app_rel _ ks [kl] k1 kl Hsorted Hin). by left. }
    assert (last_touch ops k1 < last_touch ops kl)%nat as H2; [|lia].
    apply Hleast; [|done]. apply (wf_keys_index c kl Hwf).
    rewrite Hks. apply elem_of_app. right. by left. }
  assert (k ∉ keys c) as Hnew_key.
  { rewrite wf_keys_index, Hk by done. by intros [? ?]. }
  assert (Z.of_nat (length (keys c)) = capacity c) as Hlen.
  { unfold keys. rewrite length_fmap, wf_entries_length, <- wf_live by done.
    congruence. }
  destruct (overflow_evicts_back c ks k1 k v Hwf Hkeys Hlen Hnew_key)
    as (es & e1 & c' & ? & ? & ? & Hwf' & _ & Hent' & ? & ? & ? & ?).
  exists ks, es, e1, c'. repeat (split; [done|]). split; [|done].
  intros ci Hci. destruct (Get_entry c' ci Hwf') as (c'' & Hget & _).
  { by rewrite Hent'. }
  by exists c''.
Qed.

(** *** The lock around each call *)

Lemma Get_exit_unlocked c k :
  mutex c = false →
  match lruCache_Get k c with
  | Returned _ c' => mutex c' = false
  | Panicked c' => mutex c' = false
  | Blocked => False
  end.
Proof.
  destruct c as [cap q it mu]. simpl. intros ->. run_ops.
  destruct (it !! k) as [[p|]|]; simpl; try done.
  destruct (elems (List_MoveToFront p q) !! p) as [[ci|o]|]; simpl; done.
Qed.

Lemma Set_return_unlocked c k v b c' :
  mutex c = false → lruCache_Set k v c = Returned b c' → mutex c' = false.
Proof.
  destruct c as [cap q it mu]. simpl. intros ->. run_ops.
  repeat (case_match; unfold ret, panic in *; simpl in *; simplify_eq; try done);
    intros; simplify_eq; done.
Qed.

Lemma locked_mutex_blocks c k v :
  mutex c = true →
  lruCache_Get k c = Blocked ∧ lruCache_Set k v c = Blocked.
Proof.
  destruct c as [cap q it mu]. simpl. intros ->. by run_ops.
Qed.


End Properties.

(** ** The scenarios of the specification and concrete instances *)

Section Instances.

Open Scope string_scope.
Open Scope Z_scope.
Open Scope list_scope.

Lemma cache_a_created : created 1 cache_a.
Proof.
  apply (created_Set 1 empty1 "a" (Some 1) false).
  - by apply created_New.
  - vm_compute. reflexivity.
Qed.

Lemma cache_ab_created : created 2 cache_ab.
Proof.
  apply (created_run 2 [OpSet "a" (Some 1); OpSet "b" (Some 2)] empty2).
  - by apply created_New.
  - vm_compute. reflexivity.
Qed.

Lemma cache_ab_keys : keys cache_ab = ["b"; "a"].
Proof. vm_compute. reflexivity. Qed.

Lemma cache_ab_without (k : string) : k ≠ "a" → k ≠ "b" → k ∉ keys cache_ab.
Proof.
  intros Ha Hb. rewrite cache_ab_keys.
  intros [->|[->|Hin%elem_of_nil]%elem_of_cons]%elem_of_cons; done.
Qed.

(** Scenario 1: [Set("a",1); Set("b",2); Set("c",3)] with capacity 2. *)
Example scenario_overflow :
  ∃ c, run [OpSet "a" (Some 1); OpSet "b" (Some 2); OpSet "c" (Some 3)] empty2
       = Returned () c ∧
       keys c = ["c"; "b"] ∧
       lruCache_Get "a" c = Returned (None, false) c ∧
       (∃ c', lruCache_Get "b" c = Returned (Some 2, true) c') ∧
       (∃ c', lruCache_Get "c" c = Returned (Some 3, true) c').
Proof.
  eexists. split; [vm_compute; reflexivity|].
  split; [vm_compute; reflexivity|].
  split; [vm_compute; reflexivity|].
  split; eexists; vm_compute; reflexivity.
Qed.

(** Scenario 2: [Set("a",1); Set("b",2); Get("a"); Set("c",3)]. *)
Example scenario_get_protects :
  ∃ c, run [OpSet "a" (Some 1); OpSet "b" (Some 2); OpGet "a"; OpSet "c" (Some 3)]
           empty2 = Returned () c ∧
       keys c = ["c"; "a"] ∧
       lruCache_Get "b" c = Returned (None, false) c ∧
       (∃ c', lruCache_Get "a" c = Returned (Some 1, true) c') ∧
       (∃ c', lruCache_Get "c" c = Returned (Some 3, true) c').
Proof.
  eexists. split; [vm_compute; reflexivity|].
  split; [vm_compute; reflexivity|].
  split; [vm_compute; reflexivity|].
  split; eexists; vm_compute; reflexivity.
Qed.

(** Scenario 3: [Set("a",1); Set("a",2)]. *)
Example scenario_update :
  ∃ c1 c2, lruCache_Set "a" (Some 1) empty2 = Returned false c1 ∧
           lruCache_Set "a" (Some 2) c1 = Returned true c2 ∧
           live c2 = 1%nat ∧
           ∃ c3, lruCache_Get "a" c2 = Returned (Some 2, true) c3.
Proof.
  eexists. eexists. split; [vm_compute; reflexivity|].
  split; [vm_compute; reflexivity|].
  split; [vm_compute; reflexivity|].
  eexists. vm_compute. reflexivity.
Qed.

(** Scenario 4: [New(0)]. *)
Example scenario_New_0 : New (Key:=string) (V:=Z) 0 = inl InvalidCapacity.
Proof. reflexivity. Qed.

(** *** Instances of the claims *)

Lemma Set_overflow_evicts_exactly_LRU_witness :
  New 2 = inr empty2 ∧
  run [OpSet "a" (Some 1); OpSet "b" (Some 2); OpGet "a"] empty2
    = Returned () cache_ab_read ∧
  Z.of_nat (live cache_ab_read) = 2 ∧
  is_Some (items cache_ab_read !! "b") ∧
  (∀ k', is_Some (items cache_ab_read !! k') → k' ≠ "b" →
     (last_touch [OpSet "a" (Some 1); OpSet "b" (Some 2); OpGet "a"] "b"
      < last_touch [OpSet "a" (Some 1); OpSet "b" (Some 2); OpGet "a"] k')%nat) ∧
  items cache_ab_read !! "c" = None ∧
  ∃ ks es e1 c', keys cache_ab_read = ks ++ ["b"] ∧
    entries cache_ab_read = es ++ [e1] ∧ key e1 = "b" ∧
    lruCache_Set "c" (Some 3) cache_ab_read = Returned false c' ∧
    entries c' = mkItem "c" (Some 3) :: es ∧ keys c' = "c" :: ks ∧
    lruCache_Get "b" c' = Returned (None, false) c' ∧
    (∀ ci, ci ∈ mkItem "c" (Some 3) :: es →
           ∃ c'', lruCache_Get (key ci) c' = Returned (value ci, true) c'') ∧
    (∀ k', k' ∈ "c" :: ks →
           ∃ v' c'', lruCache_Get k' c' = Returned (v', true) c'') ∧
    live c' = live cache_ab_read.
Proof.
  assert (New 2 = inr empty2) as H1 by reflexivity.
  assert (run [OpSet "a" (Some 1); OpSet "b" (Some 2); OpGet "a"] empty2
          = Returned () cache_ab_read) as H2 by (vm_compute; reflexivity).
  assert (Z.of_nat (live cache_ab_read) = 2) as H3 by (vm_compute; reflexivity).
  assert (is_Some (items cache_ab_read !! "b")) as H4.
  { exists (Some 1%nat). vm_compute. reflexivity. }
  assert (∀ k', is_Some (items cache_ab_read !! k') → k' ≠ "b" →
     (last_touch [OpSet "a" (Some 1); OpSet "b" (Some 2); OpGet "a"] "b"
      < last_touch [OpSet "a" (Some 1); OpSet "b" (Some 2); OpGet "a"] k')%nat) as H5.
  { intros k' Hin Hne. destruct (decide (k' = "a")) as [->|Hna].
    - vm_compute. lia.
    - exfalso. unfold cache_ab_read in Hin. cbn [items] in Hin.
      rewrite lookup_insert_ne, lookup_singleton_ne in Hin by congruence.
      by destruct Hin. }
  assert (items cache_ab_read !! "c" = None) as H6 by (vm_compute; reflexivity).
  repeat (split; [assumption|]).
  exact (Set_overflow_evicts_exactly_LRU 2
           [OpSet "a" (Some 1); OpSet "b" (Some 2); OpGet "a"]
           empty2 cache_ab_read "b" "c" (Some 3) H1 H2 H3 H4 H5 H6).
Defined.

Lemma live_entries_at_most_capacity_witness :
  1 ≤ 2 ∧
  ∃ c0 c, New 2 = inr c0 ∧
    run [OpSet "a" (Some 1); OpSet "b" (Some 2); OpGet "a"; OpSet "c" (Some 3)] c0
    = Returned () c ∧
    Z.of_nat (live c) ≤ 2 ∧ Z.of_nat (length (keys c)) ≤ 2.
Proof.
  assert (1 ≤ 2) as H1 by lia.
  split; [assumption|].
  exact (live_entries_at_most_capacity 2
           [OpSet "a" (Some 1); OpSet "b" (Some 2); OpGet "a"; OpSet "c" (Some 3)] H1).
Defined.

Lemma Get_after_Set_returns_value_witness :
  1 ≤ 2 ∧ created 2 cache_ab ∧
  ∃ b c', lruCache_Set "c" (Some 3) cache_ab = Returned b c' ∧
          ∃ c'', lruCache_Get "c" c' = Returned (Some 3, true) c''.
Proof.
  assert (1 ≤ 2) as H1 by lia.
  assert (created 2 cache_ab) as H2 by apply cache_ab_created.
  repeat (split; [assumption|]).
  exact (Get_after_Set_returns_value 2 cache_ab "c" (Some 3) H1 H2).
Defined.

Lemma Set_present_key_updates_in_place_witness :
  wf cache_ab ∧ is_Some (items cache_ab !! "a") ∧
  ∃ c', lruCache_Set "a" (Some 5) cache_ab = Returned true c' ∧
    entries c' = mkItem "a" (Some 5) :: filter (λ ci, key ci ≠ "a") (entries cache_ab) ∧
    items c' = items cache_ab ∧
    (∀ k', k' ∈ keys c' ↔ k' ∈ keys cache_ab) ∧
    live c' = live cache_ab ∧
    ∃ c'', lruCache_Get "a" c' = Returned (Some 5, true) c''.
Proof.
  assert (wf cache_ab) as H1 by apply (created_wf 2), cache_ab_created.
  assert (is_Some (items cache_ab !! "a")) as H2.
  { exists (Some 0%nat). vm_compute. reflexivity. }
  repeat (split; [assumption|]).
  exact (Set_present_key_updates_in_place cache_ab "a" (Some 5) H1 H2).
Defined.

Lemma Get_miss_is_noop_witness :
  mutex cache_ab = false ∧ items cache_ab !! "z" = None ∧
  lruCache_Get "z" cache_ab = Returned (None, false) cache_ab.
Proof.
  assert (mutex cache_ab = false) as H1 by reflexivity.
  assert (items cache_ab !! "z" = None) as H2 by (vm_compute; reflexivity).
  repeat (split; [assumption|]).
  exact (Get_miss_is_noop cache_ab "z" H1 H2).
Defined.

(** C7 as stated fails with capacity 1: after [Set("a", 1)] the only
    key "a" is the least recently used one; [Get("a")] finds it, and the
    following [Set("b", 2)] overflows and evicts "a" all the same. *)
Lemma Get_does_not_protect_the_only_key :
  ¬ Get_protects_LRU 1 cache_a "a" "b" (Some 2).
Proof.
  intros Hclaim.
  destruct Hclaim as (v1 & c1 & b & c2 & Hget & Hset & v1' & c3 & Hget').
  - apply cache_a_created.
  - vm_compute. reflexivity.
  - vm_compute. reflexivity.
  - assert (keys cache_a = ["a"]) as -> by (vm_compute; reflexivity).
    intros [?|Hin%elem_of_nil]%elem_of_cons; done.
  - vm_compute in Hget. injection Hget as <- <-.
    vm_compute in Hset. injection Hset as <- <-.
    vm_compute in Hget'. discriminate Hget'.
Qed.

Lemma Get_hit_protects_when_two_keys_witness :
  created 2 cache_ab ∧ keys cache_ab = [] ++ ["b"; "a"] ∧
  Z.of_nat (length (keys cache_ab)) = 2 ∧ ("c" ∉ keys cache_ab) ∧
  ∃ e1 c1 c2, e1 ∈ entries cache_ab ∧ key e1 = "a" ∧
    lruCache_Get "a" cache_ab = Returned (value e1, true) c1 ∧
    keys c1 = "a" :: [] ++ ["b"] ∧
    lruCache_Set "c" (Some 3) c1 = Returned false c2 ∧
    keys c2 = "c" :: "a" :: [] ∧
    (∃ c3, lruCache_Get "a" c2 = Returned (value e1, true) c3) ∧
    lruCache_Get "b" c2 = Returned (None, false) c2.
Proof.
  assert (created 2 cache_ab) as H1 by apply cache_ab_created.
  assert (keys cache_ab = [] ++ ["b"; "a"]) as H2 by (vm_compute; reflexivity).
  assert (Z.of_nat (length (keys cache_ab)) = 2) as H3 by (vm_compute; reflexivity).
  assert ("c" ∉ keys cache_ab) as H4 by (by apply cache_ab_without).
  repeat (split; [assumption|]).
  exact (proj2 (Get_hit_protects_when_two_keys 2 cache_ab H1)
           [] "b" "a" "c" (Some 3) H2 H3 H4).
Defined.

Lemma InvalidCapacity_is_the_only_error_witness :
  0 < 1 ∧ New (Key:=string) (V:=Z) 0 = inl InvalidCapacity ∧
  1 ≤ 2 ∧ created 2 cache_ab ∧
  (∃ c : lruCache string Z, New 2 = inr c ∧ capacity c = 2 ∧
          entries c = [] ∧ items c = ∅ ∧ live c = 0%nat) ∧
  (∃ b c', lruCache_Set "c" (Some 3) cache_ab = Returned b c') ∧
  (∃ r c', lruCache_Get "c" cache_ab = Returned r c').
Proof.
  assert (0 < 1) as H1 by lia.
  assert (1 ≤ 2) as H2 by lia.
  assert (created 2 cache_ab) as H3 by apply cache_ab_created.
  pose proof (InvalidCapacity_is_the_only_error (Key:=string) (V:=Z))
    as (Hfail & Hnew & Hops).
  split; [assumption|]. split; [exact (proj2 (Hfail 0) H1)|].
  repeat (split; [assumption|]).
  split; [exact (Hnew 2 H2)|].
  exact (Hops 2 cache_ab "c" (Some 3) H3).
Defined.

Lemma index_queue_correspondence_preserved_witness :
  created 2 cache_ab ∧ index_queue_corr cache_ab ∧
  ∀ k v,
    (∃ b c', lruCache_Set k v cache_ab = Returned b c' ∧ index_queue_corr c') ∧
    (∃ r c', lruCache_Get k cache_ab = Returned r c' ∧ index_queue_corr c').
Proof.
  assert (created 2 cache_ab) as H1 by apply cache_ab_created.
  split; [assumption|].
  exact (index_queue_correspondence_preserved 2 cache_ab H1).
Defined.


(** On the same cache [Get] panics at the same assertion, with the
    mutex released by its deferred unlock. *)
Lemma Set_and_Get_panic_on_cache_foreign :
  lruCache_Set "a" (Some 1) cache_foreign =
    Panicked (mkCache 2 (queue cache_foreign) (items cache_foreign) true) ∧
  lruCache_Get "a" cache_foreign =
    Panicked (mkCache 2 (queue cache_foreign) (items cache_foreign) false).
Proof. split; vm_compute; reflexivity. Qed.


End Instances.

(** ** The other containers *)

Section OtherContainers.

Import PolyCache Store Notify.

(** *** The generic cache *)

Lemma foldl_insert_notin {T} (kvs : list (string * T)) (g : gmap string T) k :
  k ∉ kvs.*1 →
  foldl (λ g kv, <[kv.1 := kv.2]> g) g kvs !! k = g !! k.
Proof.
  revert g. induction kvs as [|[k0 v0] kvs IH]; intros g Hk; [done|].
  rewrite fmap_cons in Hk. apply not_elem_of_cons in Hk as [Hne Hk].
  cbn [foldl]. rewrite IH by done. by apply lookup_insert_ne.
Qed.

Lemma foldl_insert_last {T} (l1 l2 : list (string * T)) (g : gmap string T) k v :
  k ∉ l2.*1 →
  foldl (λ g kv, <[kv.1 := kv.2]> g) g (l1 ++ (k, v) :: l2) !! k = Some v.
Proof.
  intros Hk. rewrite foldl_app. cbn [foldl].
  rewrite foldl_insert_notin by done. apply lookup_insert_eq.
Qed.

Lemma Cache_Set_all_made {T} `{GoZero T} (kvs : list (string * T)) (g : gmap string T) :
  Cache_Set_all kvs (PolyCache.mkCache (Some g)) =
  Ok (PolyCache.mkCache (Some (foldl (λ g kv, <[kv.1 := kv.2]> g) g kvs))).
Proof.
  revert g. induction kvs as [|[k v] kvs IH]; intros g; [done|].
  cbn [Cache_Set_all foldl]. unfold Cache_Set. cbn. apply IH.
Qed.

(** X10: on a cache made by [NewCache] no [Set] panics, and after any
    run of [Set] calls [Get] returns, for a key that was written, the
    value of the last write to it, and for a key that was not, the zero
    value and [false]. *)
Theorem Cache_Get_returns_last_Set {T} `{GoZero T} (kvs : list (string * T)) :
  ∃ c, Cache_Set_all kvs NewCache = Ok c ∧
    (∀ k, k ∉ kvs.*1 → Cache_Get k c = (go_zero, false)) ∧
    (∀ l1 k v l2, kvs = l1 ++ (k, v) :: l2 → k ∉ l2.*1 →
                  Cache_Get k c = (v, true)).
Proof.
  eexists. split; [apply Cache_Set_all_made|]. split.
  - intros k Hk. unfold Cache_Get, map_index. cbn [PolyCache.data].
    rewrite foldl_insert_notin by done. by rewrite lookup_empty.
  - intros l1 k v l2 -> Hk. unfold Cache_Get, map_index. cbn [PolyCache.data].
    by rewrite foldl_insert_last.
Qed.

(** *** The storage before and after the rewrite *)

Lemma run_after_run_before (ops : list storage_op) (m : option (gmap string string)) :
  run_after ops (mkStorage (Some (mkBackend m))) =
  run_before ops (OldStore.mkStorage m).
Proof.
  revert m. induction ops as [|[k v|k|k] ops IH]; intros m; [done|..].
  - cbn [run_after run_before].
    unfold Storage_Save, OldStore.InMemoryStorage_Save. cbn.
    unfold InMemoryBackend_Save. cbn.
    destruct m as [g|]; cbn; [apply IH|done].
  - cbn [run_after run_before].
    unfold Storage_Load, OldStore.InMemoryStorage_Load. cbn.
    rewrite IH. by destruct (run_before ops _).
  - cbn [run_after run_before].
    unfold Storage_Delete, OldStore.InMemoryStorage_Delete. cbn. apply IH.
Qed.

Lemma run_before_made (ops : list storage_op) (g : gmap string string) :
  ∃ rs, run_before ops (OldStore.mkStorage (Some g)) = Ok rs.
Proof.
  revert g. induction ops as [|[k v|k|k] ops IH]; intros g.
  - by eexists.
  - cbn [run_before]. unfold OldStore.InMemoryStorage_Save. cbn. apply IH.
  - cbn [run_before]. destruct (IH g) as [rs ->]. by eexists.
  - cbn [run_before]. unfold OldStore.InMemoryStorage_Delete. cbn. apply IH.
Qed.

(** X11: the rewrite keeps the behaviour.  On every sequence of [Save],
    [Load] and [Delete] calls the generic [Storage] over a new
    [InMemoryBackend] of strings returns from every call and answers
    each [Load] as the original [InMemoryStorage] does. *)
Theorem Storage_behaves_as_InMemoryStorage (ops : list storage_op) :
  ∃ rs, run_before ops OldStore.NewInMemoryStorage = Ok rs ∧
        run_after ops (NewStorage (Some NewInMemoryBackend)) = Ok rs.
Proof.
  destruct (run_before_made ops ∅) as [rs Hrs]. exists rs. split; [done|].
  unfold NewStorage, NewInMemoryBackend. by rewrite run_after_run_before.
Qed.

(** X12: through a [Storage] over an [InMemoryBackend] whose map is
    made, a [Save] returns, a [Load] of the saved key then returns the
    saved value and [true], and a [Load] of any other key returns what
    it returned before. *)
Theorem Storage_Load_after_Save {T} `{GoZero T} (g : gmap string T) k v :
  ∃ s', Storage_Save k v (mkStorage (Some (mkBackend (Some g)))) = Ok s' ∧
        Storage_Load k s' = Ok ((v, true), s') ∧
        ∀ k', k' ≠ k →
          ∃ r, Storage_Load k' (mkStorage (Some (mkBackend (Some g))))
               = Ok (r, mkStorage (Some (mkBackend (Some g)))) ∧
               Storage_Load k' s' = Ok (r, s').
Proof.
  eexists. split; [reflexivity|]. split.
  - unfold Storage_Load. cbn. unfold InMemoryBackend_Load, map_index. cbn.
    by rewrite lookup_insert_eq.
  - intros k' Hne. eexists. split; [reflexivity|].
    unfold Storage_Load. cbn. unfold InMemoryBackend_Load, map_index. cbn.
    by rewrite lookup_insert_ne.
Qed.

(** X13: [Delete] never panics on an [InMemoryBackend], even with a nil
    map; after it a [Load] of the deleted key returns the zero value
    and [false], other keys are untouched, and deleting a key that is
    not stored leaves the storage exactly as it was. *)
Theorem Storage_Delete_removes_only_the_key {T} `{GoZero T}
    (m : option (gmap string T)) k :
  ∃ s', Storage_Delete k (mkStorage (Some (mkBackend m))) = Ok s' ∧
        Storage_Load k s' = Ok ((go_zero, false), s') ∧
        (∀ k', k' ≠ k →
           ∃ r, Storage_Load k' (mkStorage (Some (mkBackend m)))
                = Ok (r, mkStorage (Some (mkBackend m))) ∧
                Storage_Load k' s' = Ok (r, s')) ∧
        (map_index m k = (go_zero, false) → s' = mkStorage (Some (mkBackend m))).
Proof.
  eexists. split; [reflexivity|]. split; [|split].
  - unfold Storage_Load. cbn. unfold InMemoryBackend_Load, map_index, map_delete. cbn.
    destruct m as [g|]; [|done]. by rewrite lookup_delete_eq.
  - intros k' Hne. eexists. split; [reflexivity|].
    unfold Storage_Load. cbn. unfold InMemoryBackend_Load, map_index, map_delete. cbn.
    destruct m as [g|]; [|done]. by rewrite lookup_delete_ne.
  - unfold map_index, map_delete. destruct m as [g|]; [|done].
    destruct (g !! k) eqn:Hk; [done|]. intros _.
    cbn. unfold map_delete. by rewrite delete_id.
Qed.

(** *** The notifier *)

Lemma observers_Register_all {T W} (os : list (Observer T W)) (n : Notifier T W) :
  observers (Register_all os n) = observers n ++ os.
Proof.
  unfold Register_all. revert n. induction os as [|o os IH]; intros n.
  - by rewrite app_nil_r.
  - cbn [foldl]. rewrite IH. unfold Register. cbn [observers].
    by rewrite <- app_assoc.
Qed.

Lemma range_observers_returning {T W} (gs : list (T → W → W))
    (os : list (Observer T W)) (d : T) (w : W) :
  range_observers (((λ g, Some (λ d w, Notified (g d w))) <$> gs) ++ os) d w =
  range_observers os d (foldl (λ w g, g d w) w gs).
Proof.
  revert w. induction gs as [|g gs IH]; intros w; [done|].
  rewrite fmap_cons. cbn [app range_observers call_observer foldl]. apply IH.
Qed.


End OtherContainers.

(** ** Instances of the further properties *)

Section MoreInstances.

Import PolyCache Store Notify.

Open Scope string_scope.
Open Scope Z_scope.
Open Scope list_scope.

Lemma cache_ab_wf : wf cache_ab.
Proof. apply (created_wf 2), cache_ab_created. Qed.

Lemma empty2_wf : wf empty2.
Proof. by apply (wf_New 2). Qed.

Lemma Set_puts_entry_at_front_witness :
  wf cache_ab ∧
  ∃ b c', lruCache_Set "c" (Some 3) cache_ab = Returned b c' ∧
          head (entries c') = Some (mkItem "c" (Some 3)) ∧
          head (keys c') = Some "c".
Proof.
  assert (wf cache_ab) as H1 by apply cache_ab_wf.
  split; [assumption|].
  exact (Set_puts_entry_at_front cache_ab "c" (Some 3) H1).
Defined.

Lemma Set_reports_presence_witness :
  ∃ c', mutex cache_ab = false ∧
        lruCache_Set "a" (Some 5) cache_ab = Returned true c' ∧
        true = bool_decide (is_Some (items cache_ab !! "a")).
Proof.
  assert (mutex cache_ab = false) as H1 by reflexivity.
  assert (∃ c', lruCache_Set "a" (Some 5) cache_ab = Returned true c') as [c' H2]
    by (eexists; vm_compute; reflexivity).
  exists c'. repeat (split; [assumption|]).
  exact (Set_reports_presence cache_ab "a" (Some 5) true c' H1 H2).
Defined.

Lemma cache_a_room_wf : wf cache_a_room.
Proof.
  apply (created_wf 2), (created_Set 2 empty2 "a" (Some 1) false).
  - by apply created_New.
  - vm_compute. reflexivity.
Qed.

Lemma Set_new_key_with_room_keeps_all_witness :
  wf cache_a_room ∧ items cache_a_room !! "b" = None ∧
  Z.of_nat (live cache_a_room) < capacity cache_a_room ∧
  entries cache_a_room = [mkItem "a" (Some 1)] ∧
  ∃ c', lruCache_Set "b" (Some 2) cache_a_room = Returned false c' ∧
        entries c' = mkItem "b" (Some 2) :: entries cache_a_room ∧
        live c' = S (live cache_a_room).
Proof.
  assert (wf cache_a_room) as H1 by apply cache_a_room_wf.
  assert (items cache_a_room !! "b" = None) as H2 by (vm_compute; reflexivity).
  assert (Z.of_nat (live cache_a_room) < capacity cache_a_room) as H3
    by (vm_compute; reflexivity).
  assert (entries cache_a_room = [mkItem "a" (Some 1)]) as H4
    by (vm_compute; reflexivity).
  split; [exact H1|]. split; [exact H2|]. split; [exact H3|]. split; [exact H4|].
  exact (Set_new_key_with_room_keeps_all cache_a_room "b" (Some 2) H1 H2 H3).
Defined.

Lemma Get_keeps_every_binding_witness :
  ∃ c', wf cache_ab ∧
    lruCache_Get "a" cache_ab = Returned (Some 1, true) c' ∧
    entries c' ≡ₚ entries cache_ab ∧ items c' = items cache_ab ∧
    ∀ k', ∃ r' c1 c2, lruCache_Get k' cache_ab = Returned r' c1 ∧
                      lruCache_Get k' c' = Returned r' c2.
Proof.
  assert (wf cache_ab) as H1 by apply cache_ab_wf.
  assert (∃ c', lruCache_Get "a" cache_ab = Returned (Some 1, true) c') as [c' H2]
    by (eexists; vm_compute; reflexivity).
  exists c'. repeat (split; [assumption|]).
  exact (Get_keeps_every_binding cache_ab "a" (Some 1, true) c' H1 H2).
Defined.

Lemma Get_twice_is_Get_once_witness :
  ∃ c', mutex cache_ab = false ∧
    lruCache_Get "a" cache_ab = Returned (Some 1, true) c' ∧
    lruCache_Get "a" c' = Returned (Some 1, true) c'.
Proof.
  assert (mutex cache_ab = false) as H1 by reflexivity.
  assert (∃ c', lruCache_Get "a" cache_ab = Returned (Some 1, true) c') as [c' H2]
    by (eexists; vm_compute; reflexivity).
  exists c'. repeat (split; [assumption|]).
  exact (Get_twice_is_Get_once cache_ab "a" (Some 1, true) c' H1 H2).
Defined.

Lemma Set_twice_is_last_Set_witness :
  wf cache_ab ∧
  ∃ b c1 c2, lruCache_Set "c" (Some 3) cache_ab = Returned b c1 ∧
             lruCache_Set "c" (Some 4) cache_ab = Returned b c2 ∧
             lruCache_Set "c" (Some 4) c1 = Returned true c2.
Proof.
  assert (wf cache_ab) as H1 by apply cache_ab_wf.
  split; [assumption|].
  exact (Set_twice_is_last_Set cache_ab "c" (Some 3) (Some 4) H1).
Defined.

Lemma Get_releases_mutex_witness :
  mutex cache_foreign = false ∧
  match lruCache_Get "a" cache_foreign with
  | Returned _ c' => mutex c' = false
  | Panicked c' => mutex c' = false
  | Blocked => False
  end.
Proof.
  assert (mutex cache_foreign = false) as H1 by reflexivity.
  split; [assumption|].
  exact (Get_releases_mutex cache_foreign "a" H1).
Defined.

Lemma Set_returned_releases_mutex_witness :
  ∃ c', mutex cache_ab = false ∧
        lruCache_Set "c" (Some 3) cache_ab = Returned false c' ∧
        mutex c' = false.
Proof.
  assert (mutex cache_ab = false) as H1 by reflexivity.
  assert (∃ c', lruCache_Set "c" (Some 3) cache_ab = Returned false c') as [c' H2]
    by (eexists; vm_compute; reflexivity).
  exists c'. repeat (split; [assumption|]).
  exact (Set_returned_releases_mutex cache_ab "c" (Some 3) false c' H1 H2).
Defined.

Lemma created_cache_invariants_witness :
  created 2 cache_ab ∧
  mutex cache_ab = false ∧ capacity cache_ab = 2 ∧
  NoDup (keys cache_ab) ∧
  (∀ k, k ∈ keys cache_ab ↔ is_Some (items cache_ab !! k)) ∧
  live cache_ab = length (keys cache_ab).
Proof.
  assert (created 2 cache_ab) as H1 by apply cache_ab_created.
  split; [assumption|].
  exact (created_cache_invariants 2 cache_ab H1).
Defined.

Lemma Cache_Get_returns_last_Set_witness :
  ("z" ∉ [("a", 1); ("b", 2); ("a", 3)].*1) ∧
  ("a" ∉ ([] : list (string * Z)).*1) ∧
  ∃ c, Cache_Set_all [("a", 1); ("b", 2); ("a", 3)] NewCache = Ok c ∧
       Cache_Get "z" c = (0, false) ∧ Cache_Get "a" c = (3, true).
Proof.
  assert ("z" ∉ [("a", 1); ("b", 2); ("a", 3)].*1) as H1.
  { intros [?|[?|[?|?%elem_of_nil]%elem_of_cons]%elem_of_cons]%elem_of_cons; done. }
  assert ("a" ∉ ([] : list (string * Z)).*1) as H2 by apply not_elem_of_nil.
  repeat (split; [assumption|]).
  destruct (Cache_Get_returns_last_Set [("a", 1); ("b", 2); ("a", 3)])
    as (c & Hrun & Hmiss & Hlast).
  exists c. split; [exact Hrun|]. split; [exact (Hmiss "z" H1)|].
  exact (Hlast [("a", 1); ("b", 2)] "a" 3 [] eq_refl H2).
Defined.

Lemma Storage_Load_after_Save_witness :
  "b" ≠ "a" ∧
  ∃ s', Storage_Save "a" 1 (mkStorage (Some (mkBackend (Some ∅)))) = Ok s' ∧
        Storage_Load "a" s' = Ok ((1, true), s') ∧
        ∃ r, Storage_Load "b" (mkStorage (Some (mkBackend (Some (∅ : gmap string Z)))))
             = Ok (r, mkStorage (Some (mkBackend (Some ∅)))) ∧
             Storage_Load "b" s' = Ok (r, s').
Proof.
  assert ("b" ≠ "a") as H1 by discriminate.
  split; [assumption|].
  destruct (Storage_Load_after_Save (∅ : gmap string Z) "a" 1)
    as (s' & Hsave & Hload & Hother).
  exists s'. split; [exact Hsave|]. split; [exact Hload|].
  exact (Hother "b" H1).
Defined.

Lemma Storage_Delete_removes_only_the_key_witness :
  "b" ≠ "a" ∧ map_index (None : option (gmap string Z)) "a" = (0, false) ∧
  ∃ s', Storage_Delete "a" (mkStorage (Some (mkBackend (None : option (gmap string Z)))))
        = Ok s' ∧
        Storage_Load "a" s' = Ok ((0, false), s') ∧
        (∃ r, Storage_Load "b" (mkStorage (Some (mkBackend (None : option (gmap string Z)))))
              = Ok (r, mkStorage (Some (mkBackend None))) ∧
              Storage_Load "b" s' = Ok (r, s')) ∧
        s' = mkStorage (Some (mkBackend None)).
Proof.
  assert ("b" ≠ "a") as H1 by discriminate.
  assert (map_index (None : option (gmap string Z)) "a" = (0, false)) as H2
    by reflexivity.
  repeat (split; [assumption|]).
  destruct (Storage_Delete_removes_only_the_key (None : option (gmap string Z)) "a")
    as (s' & Hdel & Hload & Hother & Hsame).
  exists s'. split; [exact Hdel|]. split; [exact Hload|].
  split; [exact (Hother "b" H1)|]. exact (Hsame H2).
Defined.


End MoreInstances.
